(** * dynlock: dynamo-style sharded readers-writer locks

    A shallow embedding of the two headers of the repository:

    - [dynlock_ht.hpp], the keyed lock: a table of [N] mutexes, [K] hash
      functions per key, a general class that draws random subsets of the
      [K] candidates, and a partial specialisation for [R = 1], [W = K];
    - [dynlock.hpp], the lock for a single resource with [K = 1 << bits]
      mutexes and a handle class [shared_timed_mutex].

    The mutex type itself is a template parameter of the code.  What the
    code does is therefore described by the calls it issues on the slots of
    its lock table, in the order in which it issues them. *)

From Stdlib Require Import List Arith ZArith NArith Bool Lia.
From Stdlib Require Import Permutation Sorted.
From Stdlib Require String.
Import ListNotations.

Set Implicit Arguments.

(* ================================================================== *)
(** * Part I: the program *)
(* ================================================================== *)

(** ** Calls on the underlying mutexes *)

Inductive op : Type :=
| OpLock
| OpUnlock
| OpLockShared
| OpUnlockShared.

Definition op_eqb (a b : op) : bool :=
  match a, b with
  | OpLock, OpLock
  | OpUnlock, OpUnlock
  | OpLockShared, OpLockShared
  | OpUnlockShared, OpUnlockShared => true
  | _, _ => false
  end.

(** ** The keyed lock of [dynlock_ht.hpp] *)

Module Keyed.

(** One call [_locks[slot].what()]. *)
Record call : Type := Call { what : op; slot : N }.

Section Table.
(** The key type and the two [std::hash] objects of [h]. *)
Variable T : Type.
Variable ih : N -> N.
Variable th : T -> N.
(** Template parameter [N]: the number of mutexes of [_locks]. *)
Variable Nlocks : N.

(** [h(i, key) = ih(i) ^ th(key)] *)
Definition h (i : nat) (key : T) : N :=
  N.lxor (ih (N.of_nat i)) (th key).

(** [get_lock(i, key) = _locks[h(i, key) % N]]: the slot it designates. *)
Definition get_lock (i : nat) (key : T) : N :=
  (h i key mod Nlocks)%N.

(** [std::for_each(tok.begin(), tok.end(), [](size_t i) { get_lock(i, key).what(); })] *)
Definition for_each (o : op) (key : T) (tok : list nat) : list call :=
  map (fun i => Call o (get_lock i key)) tok.
End Table.

(** *** The general class [dyn_lock<SharedMutex, N, K, R, W>] *)
Module General.
Section Class.
Variable T : Type.
Variable ih : N -> N.
Variable th : T -> N.
Variable Nlocks : N.
Variable K : nat.
Variable W : nat.
(** [std::rand()] as used by the two-argument [std::random_shuffle]:
    its hidden global state is made explicit. *)
Variable rng : Type.
Variable rand : rng -> nat * rng.

Definition token : Type := list nat.

(** [vec(K)] filled by [generate] with [i++] from [0]. *)
Definition array_of_K : list nat := seq 0 K.

(** [v[i] = x], no effect out of range. *)
Fixpoint set_nth (i : nat) (x : nat) (l : list nat) : list nat :=
  match l, i with
  | [], _ => []
  | _ :: t, O => x :: t
  | y :: t, S i' => y :: set_nth i' x t
  end.

Definition iter_swap (i j : nat) (l : list nat) : list nat :=
  set_nth j (nth i l 0) (set_nth i (nth j l 0) l).

(** The loop of [std::random_shuffle(first, last)]:
    [for (i = first + 1; i != last; ++i) {
       j = first + rand() % ((i - first) + 1);
       if (i != j) iter_swap(i, j); }]
    with [n] iterations left. *)
Fixpoint shuffle_from (n i : nat) (l : list nat) (g : rng)
  : list nat * rng :=
  match n with
  | O => (l, g)
  | S n' =>
      let (r, g') := rand g in
      let j := r mod (i + 1) in
      shuffle_from n' (S i) (if i =? j then l else iter_swap i j l) g'
  end.

Definition random_shuffle (l : list nat) (g : rng) : list nat * rng :=
  shuffle_from (length l - 1) 1 l g.

(** [vector::resize(k)]: truncates, or pads with value-initialised
    elements. *)
Definition resize (k : nat) (l : list nat) : list nat :=
  firstn k l ++ repeat 0 (k - length l).

(** [std::sort] on [size_t]. *)
Fixpoint insert (x : nat) (l : list nat) : list nat :=
  match l with
  | [] => [x]
  | y :: t => if x <=? y then x :: l else y :: insert x t
  end.

Fixpoint sort (l : list nat) : list nat :=
  match l with
  | [] => []
  | x :: t => insert x (sort t)
  end.

Definition hash_choices (k : nat) (g : rng) : token * rng :=
  let (choices, g') := random_shuffle array_of_K g in
  (sort (resize k choices), g').

Definition lock (key : T) (g : rng) : token * list call * rng :=
  let (tok, g') := hash_choices W g in
  (tok, for_each ih th Nlocks OpLock key tok, g').

Definition unlock (key : T) (tok : token) : list call :=
  for_each ih th Nlocks OpUnlock key tok.

(** As in the source, the subset is drawn with [hash_choices(W)]. *)
Definition lock_shared (key : T) (g : rng) : token * list call * rng :=
  let (tok, g') := hash_choices W g in
  (tok, for_each ih th Nlocks OpLockShared key tok, g').

Definition unlock_shared (key : T) (tok : token) : list call :=
  for_each ih th Nlocks OpUnlockShared key tok.

(** A lock call followed by the paired unlock call on its token. *)
Inductive mode : Type := Exclusive | Shared.

Definition cycle (m : mode) (key : T) (g : rng) : list call * rng :=
  match m with
  | Exclusive =>
      let '(tok, cs, g') := lock key g in (cs ++ unlock key tok, g')
  | Shared =>
      let '(tok, cs, g') := lock_shared key g in
      (cs ++ unlock_shared key tok, g')
  end.

Fixpoint cycles (reqs : list (mode * T)) (g : rng) : list call * rng :=
  match reqs with
  | [] => ([], g)
  | (m, key) :: rest =>
      let (cs, g') := cycle m key g in
      let (cs', g'') := cycles rest g' in
      (cs ++ cs', g'')
  end.
(** Following the words of the specification, not the source: the reader
    path as "the pattern of [lock(key)] with a subset of size [R]".  It is
    the body of [lock_shared] with the size made a parameter; the source
    passes [W]. *)
Definition spec_lock_shared (R : nat) (key : T) (g : rng)
  : token * list call * rng :=
  let (tok, g') := hash_choices R g in
  (tok, for_each ih th Nlocks OpLockShared key tok, g').

(** The handle [shared_mutex<T>] of the class: the key it was built for
    and the token of its last lock call.  The constructor leaves [_tok]
    an empty vector. *)
Record shared_mutex : Type := SharedMutex { _key : T; _tok : token }.

Definition shared_mutex_new (key : T) : shared_mutex := SharedMutex key [].

Definition shared_mutex_lock (m : shared_mutex) (g : rng)
  : shared_mutex * list call * rng :=
  let '(tok, cs, g') := lock (_key m) g in
  (SharedMutex (_key m) tok, cs, g').

Definition shared_mutex_unlock (m : shared_mutex) : list call :=
  unlock (_key m) (_tok m).

Definition shared_mutex_lock_shared (m : shared_mutex) (g : rng)
  : shared_mutex * list call * rng :=
  let '(tok, cs, g') := lock_shared (_key m) g in
  (SharedMutex (_key m) tok, cs, g').

Definition shared_mutex_unlock_shared (m : shared_mutex) : list call :=
  unlock_shared (_key m) (_tok m).
End Class.
End General.

(** *** The specialisation [dyn_lock<SharedMutex, N, K, 1, K>] *)
Module Special.
Section Class.
Variable T : Type.
Variable ih : N -> N.
Variable th : T -> N.
Variable Nlocks : N.
Variable K : nat.
(** The static [default_random_engine] of [lock_shared], and
    [dist(generator)] for [uniform_int_distribution<size_t>(0, K-1)]. *)
Variable engine : Type.
Variable dist : engine -> nat * engine.

Definition token : Type := nat.

(** [for (size_t i = 0; i < K; ++i) get_lock(i, key).lock(); return 0;] *)
Definition lock (key : T) : token * list call :=
  (0, for_each ih th Nlocks OpLock key (seq 0 K)).

Definition unlock (key : T) (_ : token) : list call :=
  for_each ih th Nlocks OpUnlock key (seq 0 K).

Definition lock_shared (key : T) (e : engine)
  : token * list call * engine :=
  let (i, e') := dist e in
  (i, [Call OpLockShared (get_lock ih th Nlocks i key)], e').

Definition unlock_shared (key : T) (tok : token) : list call :=
  [Call OpUnlockShared (get_lock ih th Nlocks tok key)].
(** A lock call followed by the paired unlock call on its token. *)
Definition cycle (m : General.mode) (key : T) (e : engine)
  : list call * engine :=
  match m with
  | General.Exclusive =>
      let (tok, cs) := lock key in (cs ++ unlock key tok, e)
  | General.Shared =>
      let '(tok, cs, e') := lock_shared key e in
      (cs ++ unlock_shared key tok, e')
  end.

Fixpoint cycles (reqs : list (General.mode * T)) (e : engine)
  : list call * engine :=
  match reqs with
  | [] => ([], e)
  | (m, key) :: rest =>
      let (cs, e') := cycle m key e in
      let (cs', e'') := cycles rest e' in
      (cs ++ cs', e'')
  end.

(** The handle [shared_mutex<T>] of the specialisation; its constructor
    does not initialise the scalar [_tok]. *)
Record shared_mutex : Type := SharedMutex { _key : T; _tok : token }.

Definition shared_mutex_new (key : T) (uninit : token) : shared_mutex :=
  SharedMutex key uninit.

Definition shared_mutex_lock (m : shared_mutex) : shared_mutex * list call :=
  let (tok, cs) := lock (_key m) in (SharedMutex (_key m) tok, cs).

Definition shared_mutex_unlock (m : shared_mutex) : list call :=
  unlock (_key m) (_tok m).

Definition shared_mutex_lock_shared (m : shared_mutex) (e : engine)
  : shared_mutex * list call * engine :=
  let '(tok, cs, e') := lock_shared (_key m) e in
  (SharedMutex (_key m) tok, cs, e').

Definition shared_mutex_unlock_shared (m : shared_mutex) : list call :=
  unlock_shared (_key m) (_tok m).
End Class.
End Special.

(** *** A counting mutex: calls held per slot *)

Definition delta (acq rel : op) (s : N) (c : call) : Z :=
  if N.eqb (slot c) s then
    if op_eqb (what c) acq then 1%Z
    else if op_eqb (what c) rel then (-1)%Z
    else 0%Z
  else 0%Z.

Fixpoint counter (acq rel : op) (s : N) (cs : list call) : Z :=
  match cs with
  | [] => 0%Z
  | c :: rest => (delta acq rel s c + counter acq rel s rest)%Z
  end.

Definition held_exclusive : N -> list call -> Z := counter OpLock OpUnlock.
Definition held_shared : N -> list call -> Z :=
  counter OpLockShared OpUnlockShared.

Definition slots (cs : list call) : list N := map slot cs.

(** Is a list of slots in ascending order of table index? *)
Fixpoint ascendingb (l : list N) : bool :=
  match l with
  | [] => true
  | x :: t =>
      match t with
      | [] => true
      | y :: _ => (x <? y)%N && ascendingb t
      end
  end.

(** Do two token lists share an index? *)
Definition intersectb (a b : list nat) : bool :=
  existsb (fun i => existsb (Nat.eqb i) b) a.
End Keyed.

(** ** The single-resource lock of [dynlock.hpp] *)

Module Fixed.
Local Open Scope Z_scope.

(** Calls on [_dlock._locks[i]]; a try call carries what the mutex
    answered. *)
Inductive call : Type :=
| CLock (i : Z)
| CTryLock (i : Z) (ok : bool)
| CUnlock (i : Z)
| CLockShared (i : Z)
| CUnlockShared (i : Z).

(** How a member function ends: it returns, it indexes [_locks] outside
    the array, or its loop is still running after the steps allowed. *)
Inductive outcome (A : Type) : Type :=
| Returns (a : A)
| OutOfBounds (i : Z)
| Running.

Arguments OutOfBounds {A} i.
Arguments Running {A}.

(** Arithmetic on [size_t]. *)
Definition size_t_wrap (z : Z) : Z := z mod 2 ^ 64.

(** The handle [shared_timed_mutex]: its generator and the remembered
    index. *)
Record handle (G : Type) : Type := Handle { _gen : G; _lockid : Z }.

(** A try call for the shared mode of [_locks[i]], with the answer. *)
Inductive shared_try : Type := TryShared (i : Z) (ok : bool).

Section Class.
(** Template parameter [bits]; [K() = 1 << bits], the size of the array
    [_locks]. *)
Variable bits : Z.

Definition K : Z := Z.shiftl 1 bits.

Definition in_table (i : Z) : bool := (0 <=? i) && (i <? K).

(** [for (size_t i = 0; i < K(); ++i) _dlock._locks[i].lock();]
    with [n] iterations left. *)
Fixpoint lock_from (n : nat) (i : Z) : list call :=
  match n with
  | O => []
  | S n' => CLock i :: lock_from n' (size_t_wrap (i + 1))
  end.

Definition lock : list call := lock_from (Z.to_nat K) 0.

Fixpoint unlock_from (n : nat) (i : Z) : list call :=
  match n with
  | O => []
  | S n' => CUnlock i :: unlock_from n' (size_t_wrap (i + 1))
  end.

Definition unlock : list call := unlock_from (Z.to_nat K) 0.

Section Try.
(** The answer of the underlying try call on slot [i]. *)
Variable attempt : Z -> bool.

(** The [for] loop of [try_lock] and [try_lock_until], with [n]
    iterations left: the final [i], [ret] and the calls made. *)
Fixpoint try_from (n : nat) (i : Z) : Z * bool * list call :=
  match n with
  | O => (i, true, [])
  | S n' =>
      if attempt i then
        let '(j, ret, cs) := try_from n' (size_t_wrap (i + 1)) in
        (j, ret, CTryLock i true :: cs)
      else (i, false, [CTryLock i false])
  end.

(** [while (--i >= 0) _dlock._locks[i].unlock();] on [size_t i]. *)
Fixpoint rollback (fuel : nat) (i : Z) : outcome unit * list call :=
  match fuel with
  | O => (Running, [])
  | S fuel' =>
      let i' := size_t_wrap (i - 1) in
      if 0 <=? i' then
        if in_table i' then
          let (o, cs) := rollback fuel' i' in (o, CUnlock i' :: cs)
        else (OutOfBounds i', [])
      else (Returns tt, [])
  end.

Definition try_all (fuel : nat) : outcome bool * list call :=
  let '(i, ret, cs) := try_from (Z.to_nat K) 0 in
  if ret then (Returns true, cs)
  else
    let (o, cs') := rollback fuel i in
    (match o with
     | Returns _ => Returns false
     | OutOfBounds j => OutOfBounds j
     | Running => Running
     end, cs ++ cs').
End Try.

(** The underlying [try_lock()] and [try_lock_until(atime)] of each slot. *)
Variable m_try_lock : Z -> bool.
Variable m_try_lock_until : Z -> Z -> bool.

(** [try_lock] is declared [void] in the source and ends in [return ret;]
    all the same; the value is kept here. *)
Definition try_lock (fuel : nat) : outcome bool * list call :=
  try_all m_try_lock fuel.

Definition try_lock_until (atime : Z) (fuel : nat)
  : outcome bool * list call :=
  try_all (m_try_lock_until atime) fuel.

(** [try_lock_for]: the duration is converted, rounded up by one tick when
    the clock is coarser, and added to [now()]. *)
Definition try_lock_for (rtime now : Z) (coarser : bool) (fuel : nat)
  : outcome bool * list call :=
  let rt := if coarser then rtime + 1 else rtime in
  try_lock_until (now + rt) fuel.

(** The template parameter [RandomGenerator]: [_gen()]. *)
Variable G : Type.
Variable gen : G -> Z * G.

Definition lock_shared (hd : handle G) : outcome (handle G) * list call :=
  let (v, g') := gen (_gen hd) in
  let hd' := Handle g' v in
  if in_table v then (Returns hd', [CLockShared v])
  else (OutOfBounds v, []).

Definition unlock_shared (hd : handle G) : outcome (handle G) * list call :=
  if in_table (_lockid hd) then (Returns hd, [CUnlockShared (_lockid hd)])
  else (OutOfBounds (_lockid hd), []).
(** The underlying [try_lock_shared()], [try_lock_shared_until(atime)] and
    [try_lock_shared_for(rtime)] of each slot. *)
Variable m_try_lock_shared : Z -> bool.
Variable m_try_lock_shared_until : Z -> Z -> bool.
Variable m_try_lock_shared_for : Z -> Z -> bool.

Definition try_lock_shared (hd : handle G)
  : outcome (handle G * bool) * list shared_try :=
  let (v, g') := gen (_gen hd) in
  let hd' := Handle g' v in
  if in_table v then
    (Returns (hd', m_try_lock_shared v), [TryShared v (m_try_lock_shared v)])
  else (OutOfBounds v, []).

Definition try_lock_shared_until (atime : Z) (hd : handle G)
  : outcome (handle G * bool) * list shared_try :=
  let (v, g') := gen (_gen hd) in
  let hd' := Handle g' v in
  if in_table v then
    (Returns (hd', m_try_lock_shared_until atime v),
     [TryShared v (m_try_lock_shared_until atime v)])
  else (OutOfBounds v, []).

Definition try_lock_shared_for (rtime : Z) (hd : handle G)
  : outcome (handle G * bool) * list shared_try :=
  let (v, g') := gen (_gen hd) in
  let hd' := Handle g' v in
  if in_table v then
    (Returns (hd', m_try_lock_shared_for rtime v),
     [TryShared v (m_try_lock_shared_for rtime v)])
  else (OutOfBounds v, []).
End Class.

(** Exclusive acquisitions of slot [s] still held after the calls [cs]. *)
Definition delta (s : Z) (c : call) : Z :=
  match c with
  | CLock i => if i =? s then 1 else 0
  | CTryLock i ok => if (i =? s) && ok then 1 else 0
  | CUnlock i => if i =? s then -1 else 0
  | _ => 0
  end.

Fixpoint held (s : Z) (cs : list call) : Z :=
  match cs with
  | [] => 0
  | c :: rest => delta s c + held s rest
  end.

(** The slots of the blocking acquisitions, in call order. *)
Fixpoint acquired (cs : list call) : list Z :=
  match cs with
  | [] => []
  | CLock i :: rest => i :: acquired rest
  | CLockShared i :: rest => i :: acquired rest
  | _ :: rest => acquired rest
  end.
(** Shared acquisitions of slot [s] still held after the calls [cs]. *)
Definition delta_shared (s : Z) (c : call) : Z :=
  match c with
  | CLockShared i => if i =? s then 1 else 0
  | CUnlockShared i => if i =? s then -1 else 0
  | _ => 0
  end.

Fixpoint held_shared (s : Z) (cs : list call) : Z :=
  match cs with
  | [] => 0
  | c :: rest => delta_shared s c + held_shared s rest
  end.

(** One member call after another on the same handle; the second is not
    reached when the first leaves the array. *)
Definition and_then (A B : Type) (r : outcome A * list call)
           (k : A -> outcome B * list call) : outcome B * list call :=
  match r with
  | (Returns a, cs) => let (o, cs') := k a in (o, cs ++ cs')
  | (OutOfBounds i, cs) => (OutOfBounds i, cs)
  | (Running, cs) => (Running, cs)
  end.

(** [lock_shared(); lock_shared(); unlock_shared(); unlock_shared();] on
    one handle. *)
Definition nested_shared (bits : Z) (G : Type) (gen : G -> Z * G)
           (hd : handle G) : outcome (handle G) * list call :=
  and_then (lock_shared bits gen hd) (fun hd1 =>
  and_then (lock_shared bits gen hd1) (fun hd2 =>
  and_then (unlock_shared bits hd2) (fun hd3 =>
  unlock_shared bits hd3))).
End Fixed.

(** ** Concrete instances *)

Module Sample.
Local Open Scope Z_scope.

(** [std::hash] on integers as the identity, as in libstdc++. *)
Definition id_hash (x : N) : N := x.

(** A replayed sequence of [rand()] results. *)
Definition replay (g : list nat) : nat * list nat :=
  match g with
  | [] => (0%nat, [])
  | r :: g' => (r, g')
  end.

(** A generator of [bits]-bit numbers: a counter, reduced. *)
Definition counter_gen (bits : Z) (g : Z) : Z * Z :=
  (g mod 2 ^ bits, g + 1).

(** An underlying mutex that grants the slots below [n] only. *)
Definition grants_below (n : Z) (i : Z) : bool := i <? n.

(** A distribution over [0 .. K-1]: a counter, reduced. *)
Definition counter_dist (K : nat) (e : nat) : nat * nat :=
  ((e mod K)%nat, S e).
End Sample.

(** ** The example programs of [example.cpp] *)

Module Example.
Import String.

(** [std::string key("fizz")] *)
Definition key : string := "fizz".


(** [main] for the single resource: [bits = 4] by default. *)
Definition main_fixed (G : Type) (gen : G -> Z * G) (mut : Fixed.handle G)
  : Fixed.outcome (Fixed.handle G) * list Fixed.call :=
  let cs := Fixed.lock 4 ++ Fixed.unlock 4 in
  let (o, cs') :=
    Fixed.and_then (Fixed.lock_shared 4 gen mut)
                   (fun mut' => Fixed.unlock_shared 4 mut') in
  (o, cs ++ cs').
End Example.

(* ================================================================== *)
(** * Part II: properties *)
(* ================================================================== *)

Import Keyed.

(** ** The shuffle, the truncation and the sort *)

Section Shuffle.
Variable rng : Type.
Variable rand : rng -> nat * rng.

Lemma set_nth_length (i x : nat) (l : list nat) :
  length (General.set_nth i x l) = length l.
Proof.
  revert i; induction l as [|y t IH]; intros [|i]; simpl; auto.
Qed.

Lemma set_nth_nth_other (i j x : nat) (l : list nat) :
  i <> j -> nth j (General.set_nth i x l) 0 = nth j l 0.
Proof.
  revert i j; induction l as [|y t IH]; intros [|i] [|j] Hne; simpl; auto.
  - congruence.
Qed.

(** Overwriting a cell trades one occurrence of the old value for one of
    the new. *)
Lemma set_nth_count (i x y : nat) (l : list nat) :
  i < length l ->
  count_occ Nat.eq_dec (General.set_nth i x l) y
  + (if Nat.eq_dec (nth i l 0) y then 1 else 0)
  = count_occ Nat.eq_dec l y + (if Nat.eq_dec x y then 1 else 0).
Proof.
  revert i; induction l as [|z t IH]; intros [|i] Hi; simpl in *; try lia.
  - destruct (Nat.eq_dec x y), (Nat.eq_dec z y); lia.
  - specialize (IH i ltac:(lia)).
    destruct (Nat.eq_dec z y); lia.
Qed.

Lemma iter_swap_perm (i j : nat) (l : list nat) :
  i < length l -> j < length l -> i <> j ->
  Permutation l (General.iter_swap i j l).
Proof.
  intros Hi Hj Hne.
  apply (Permutation_count_occ Nat.eq_dec); intro y.
  unfold General.iter_swap.
  pose proof (set_nth_count (nth j l 0) y l Hi) as H1.
  assert (Hj' : j < length (General.set_nth i (nth j l 0) l))
    by (rewrite set_nth_length; exact Hj).
  pose proof (set_nth_count (nth i l 0) y _ Hj') as H2.
  rewrite (set_nth_nth_other _ l Hne) in H2.
  lia.
Qed.

Lemma shuffle_from_perm (n : nat) :
  forall (i : nat) (l : list nat) (g : rng),
    i + n <= length l ->
    Permutation l (fst (General.shuffle_from rand n i l g)).
Proof.
  induction n as [|n IH]; intros i l g Hlen; simpl.
  - apply Permutation_refl.
  - destruct (rand g) as [r g'].
    assert (Hj : r mod (i + 1) < i + 1) by (apply Nat.mod_upper_bound; lia).
    destruct (Nat.eqb_spec i (r mod (i + 1))) as [_|Hne].
    + apply IH; lia.
    + eapply Permutation_trans.
      * apply (@iter_swap_perm i (r mod (i + 1)) l); lia.
      * apply IH. unfold General.iter_swap.
        rewrite !set_nth_length. lia.
Qed.

Lemma random_shuffle_perm (l : list nat) (g : rng) :
  Permutation l (fst (General.random_shuffle rand l g)).
Proof.
  unfold General.random_shuffle.
  destruct l as [|x t].
  - simpl. apply Permutation_refl.
  - apply shuffle_from_perm. simpl. lia.
Qed.

Lemma resize_length (k : nat) (l : list nat) :
  length (General.resize k l) = k.
Proof.
  unfold General.resize.
  rewrite length_app, length_firstn, repeat_length. lia.
Qed.

Lemma resize_firstn (k : nat) (l : list nat) :
  k <= length l -> General.resize k l = firstn k l.
Proof.
  intro H. unfold General.resize.
  replace (k - length l) with 0 by lia. simpl. apply app_nil_r.
Qed.

Lemma insert_perm (x : nat) (l : list nat) :
  Permutation (x :: l) (General.insert x l).
Proof.
  induction l as [|y t IH]; simpl.
  - apply Permutation_refl.
  - destruct (x <=? y).
    + apply Permutation_refl.
    + eapply Permutation_trans; [apply perm_swap|].
      apply perm_skip, IH.
Qed.

Lemma sort_perm (l : list nat) : Permutation l (General.sort l).
Proof.
  induction l as [|x t IH]; simpl.
  - apply perm_nil.
  - eapply Permutation_trans; [apply perm_skip, IH | apply insert_perm].
Qed.

Lemma insert_sorted (x : nat) (l : list nat) :
  Sorted le l -> Sorted le (General.insert x l).
Proof.
  induction l as [|y t IH]; intro Hs; simpl.
  - repeat constructor.
  - destruct (Nat.leb_spec x y) as [Hle|Hgt].
    + constructor; [exact Hs | constructor; exact Hle].
    + inversion Hs as [|? ? Hst Hhd]; subst.
      constructor; [apply IH, Hst|].
      destruct t as [|z t']; simpl.
      * constructor; lia.
      * destruct (x <=? z); constructor; try lia.
        inversion Hhd; subst; assumption.
Qed.

Lemma sort_sorted (l : list nat) : Sorted le (General.sort l).
Proof.
  induction l as [|x t IH]; simpl.
  - constructor.
  - apply insert_sorted, IH.
Qed.

(** Sorted without duplicates is strictly ascending. *)
Lemma sorted_nodup_strict (l : list nat) :
  Sorted le l -> NoDup l -> StronglySorted lt l.
Proof.
  intro Hs. apply Sorted_StronglySorted in Hs; [|intros a b c; apply Nat.le_trans].
  induction Hs as [|x t Hst IH Hall]; intro Hnd.
  - constructor.
  - inversion Hnd as [|? ? Hnin Hnd']; subst.
    constructor; [apply IH, Hnd'|].
    rewrite Forall_forall in *. intros y Hy.
    specialize (Hall y Hy).
    assert (x <> y) by (intro; subst; contradiction).
    lia.
Qed.

(** A strictly ascending list is determined by its elements. *)
Lemma strict_sorted_unique (l1 : list nat) :
  forall l2 : list nat,
    StronglySorted lt l1 -> StronglySorted lt l2 ->
    (forall x, In x l1 <-> In x l2) -> l1 = l2.
Proof.
  induction l1 as [|a t1 IH]; intros [|b t2] H1 H2 Hin.
  - reflexivity.
  - exfalso. apply (proj2 (Hin b)). left; reflexivity.
  - exfalso. apply (proj1 (Hin a)). left; reflexivity.
  - inversion H1 as [|? ? Hs1 Hf1]; inversion H2 as [|? ? Hs2 Hf2]; subst.
    rewrite Forall_forall in Hf1, Hf2.
    assert (a = b).
    { destruct (proj1 (Hin a) (or_introl eq_refl)) as [Hab|Hab]; [auto|].
      destruct (proj2 (Hin b) (or_introl eq_refl)) as [Hba|Hba]; [auto|].
      specialize (Hf1 _ Hba). specialize (Hf2 _ Hab). lia. }
    subst b. f_equal. apply IH; auto.
    intro x; split; intro Hx.
    + destruct (proj1 (Hin x) (or_intror Hx)) as [He|]; [|assumption].
      subst x. specialize (Hf1 _ Hx). lia.
    + destruct (proj2 (Hin x) (or_intror Hx)) as [He|]; [|assumption].
      subst x. specialize (Hf2 _ Hx). lia.
Qed.

Lemma seq_strict_sorted (len start : nat) : StronglySorted lt (seq start len).
Proof.
  revert start; induction len as [|len IH]; intro start; simpl.
  - constructor.
  - constructor; [apply IH|].
    rewrite Forall_forall. intros x Hx. apply in_seq in Hx. lia.
Qed.
End Shuffle.

(** ** The subsets drawn by [hash_choices] *)

Section Choices.
Variable K : nat.
Variable rng : Type.
Variable rand : rng -> nat * rng.

Local Abbreviation hash_choices := (General.hash_choices K rand).

Lemma firstn_In (k x : nat) (l : list nat) : In x (firstn k l) -> In x l.
Proof.
  intro H. rewrite <- (firstn_skipn k l). apply in_or_app. left; exact H.
Qed.

Lemma firstn_NoDup (k : nat) (l : list nat) : NoDup l -> NoDup (firstn k l).
Proof.
  intro H. rewrite <- (firstn_skipn k l) in H.
  apply NoDup_app_remove_r in H. exact H.
Qed.

(** Whatever the size asked for, the vector returned has that size and is
    in ascending order. *)
Lemma hash_choices_length (k : nat) (g : rng) :
  length (fst (hash_choices k g)) = k.
Proof.
  unfold General.hash_choices.
  destruct (General.random_shuffle rand (General.array_of_K K) g) as [c g'].
  simpl. rewrite <- (Permutation_length (sort_perm _)).
  apply resize_length.
Qed.

Lemma hash_choices_sorted (k : nat) (g : rng) :
  Sorted le (fst (hash_choices k g)).
Proof.
  unfold General.hash_choices.
  destruct (General.random_shuffle rand (General.array_of_K K) g) as [c g'].
  simpl. apply sort_sorted.
Qed.

(** For a size within [K], it is a sorted prefix of a permutation of
    [0 .. K-1]. *)
Lemma hash_choices_prefix (k : nat) (g : rng) :
  k <= K ->
  exists c, Permutation (seq 0 K) c /\
            Permutation (firstn k c) (fst (hash_choices k g)).
Proof.
  intro Hk. unfold General.hash_choices.
  pose proof (random_shuffle_perm rand (General.array_of_K K) g) as Hp.
  destruct (General.random_shuffle rand (General.array_of_K K) g) as [c g'].
  simpl in *. exists c. split; [exact Hp|].
  rewrite resize_firstn.
  - apply sort_perm.
  - rewrite <- (Permutation_length Hp). unfold General.array_of_K.
    rewrite length_seq. exact Hk.
Qed.

Lemma hash_choices_NoDup (k : nat) (g : rng) :
  k <= K -> NoDup (fst (hash_choices k g)).
Proof.
  intro Hk. destruct (hash_choices_prefix g Hk) as (c & Hc & Ht).
  eapply Permutation_NoDup; [exact Ht|].
  apply firstn_NoDup. eapply Permutation_NoDup; [exact Hc|apply seq_NoDup].
Qed.

Lemma hash_choices_range (k : nat) (g : rng) (i : nat) :
  k <= K -> In i (fst (hash_choices k g)) -> i < K.
Proof.
  intros Hk Hi. destruct (hash_choices_prefix g Hk) as (c & Hc & Ht).
  apply (Permutation_in _ (Permutation_sym Ht)) in Hi.
  apply firstn_In in Hi.
  apply (Permutation_in _ (Permutation_sym Hc)) in Hi.
  apply in_seq in Hi. lia.
Qed.

Lemma hash_choices_strict (k : nat) (g : rng) :
  k <= K -> StronglySorted lt (fst (hash_choices k g)).
Proof.
  intro Hk. apply sorted_nodup_strict.
  - apply hash_choices_sorted.
  - apply hash_choices_NoDup, Hk.
Qed.


(** Pigeonhole: two duplicate-free lists below [K] whose sizes exceed [K]
    together meet. *)
Lemma pigeonhole_meet (a b : list nat) :
  NoDup a -> NoDup b ->
  (forall i, In i a -> i < K) -> (forall i, In i b -> i < K) ->
  K < length a + length b ->
  exists i, In i a /\ In i b.
Proof.
  intros Ha Hb Hra Hrb Hlen.
  destruct (intersectb a b) eqn:E.
  - unfold intersectb in E. apply existsb_exists in E as (i & Hi & E).
    apply existsb_exists in E as (j & Hj & E).
    apply Nat.eqb_eq in E. subst j. exists i; split; assumption.
  - exfalso.
    assert (Hdis : forall i, In i a -> ~ In i b).
    { intros i Hia Hib.
      assert (intersectb a b = true); [|congruence].
      unfold intersectb. apply existsb_exists. exists i; split; [exact Hia|].
      apply existsb_exists. exists i; split; [exact Hib|apply Nat.eqb_refl]. }
    pose proof (NoDup_app Ha Hb Hdis) as Hnd.
    assert (Hincl : incl (a ++ b) (seq 0 K)).
    { intros i Hi. apply in_seq. apply in_app_or in Hi as [Hi|Hi];
        [apply Hra in Hi|apply Hrb in Hi]; lia. }
    pose proof (NoDup_incl_length Hnd Hincl) as Hle.
    rewrite length_app, length_seq in Hle. lia.
Qed.

Lemma hash_choices_meet (k k' : nat) (g g' : rng) :
  k <= K -> k' <= K -> K < k + k' ->
  exists i, In i (fst (hash_choices k g)) /\ In i (fst (hash_choices k' g')).
Proof.
  intros Hk Hk' Hsum. apply pigeonhole_meet.
  - apply hash_choices_NoDup, Hk.
  - apply hash_choices_NoDup, Hk'.
  - intros i. apply hash_choices_range, Hk.
  - intros i. apply hash_choices_range, Hk'.
  - rewrite !hash_choices_length. exact Hsum.
Qed.
End Choices.

(** ** Which subsets the shuffle can produce *)






(** ** The keyed lock: tokens and calls *)

Section KeyedLock.
Variable T : Type.
Variable ih : N -> N.
Variable th : T -> N.
Variable Nlocks : N.
Variable K : nat.
Variable rng : Type.
Variable rand : rng -> nat * rng.
Variable engine : Type.
Variable dist : engine -> nat * engine.

Local Abbreviation get_lock := (Keyed.get_lock ih th Nlocks).
Local Abbreviation for_each := (Keyed.for_each ih th Nlocks).
Local Abbreviation hash_choices := (General.hash_choices K rand).
Local Abbreviation g_lock := (General.lock ih th Nlocks K).
Local Abbreviation g_lock_shared := (General.lock_shared ih th Nlocks K).
Local Abbreviation g_unlock := (General.unlock ih th Nlocks).
Local Abbreviation g_unlock_shared := (General.unlock_shared ih th Nlocks).
Local Abbreviation s_lock := (Special.lock ih th Nlocks K).
Local Abbreviation s_unlock := (Special.unlock ih th Nlocks K).
Local Abbreviation s_lock_shared := (Special.lock_shared ih th Nlocks dist).
Local Abbreviation s_unlock_shared := (Special.unlock_shared ih th Nlocks).

Lemma lock_unfold (W : nat) (key : T) (g : rng) :
  g_lock W rand key g
  = (fst (hash_choices W g),
     for_each OpLock key (fst (hash_choices W g)),
     snd (hash_choices W g)).
Proof.
  unfold General.lock. destruct (General.hash_choices K rand W g); reflexivity.
Qed.

Lemma lock_shared_unfold (W : nat) (key : T) (g : rng) :
  g_lock_shared W rand key g
  = (fst (hash_choices W g),
     for_each OpLockShared key (fst (hash_choices W g)),
     snd (hash_choices W g)).
Proof.
  unfold General.lock_shared.
  destruct (General.hash_choices K rand W g); reflexivity.
Qed.

(** C1: in the general class the reader's subset has the writer's size:
    [lock_shared] returns the very token [lock] would return from the same
    generator state, of [W] elements and with one shared acquisition per
    element, whatever [R] is.  At [K = 3], [R = 2], [W = 3] the token has
    three elements, not two. *)
Theorem lock_shared_token_has_size_W :
  (forall (W : nat) (key : T) (g : rng),
      fst (fst (g_lock_shared W rand key g)) = fst (fst (g_lock W rand key g))
      /\ length (fst (fst (g_lock_shared W rand key g))) = W
      /\ length (snd (fst (g_lock_shared W rand key g))) = W)
  /\ fst (General.lock_shared Sample.id_hash Sample.id_hash 1024 3 3
            Sample.replay 5%N [1; 2])
     = ([0; 1; 2],
        [Call OpLockShared 5; Call OpLockShared 4; Call OpLockShared 7]).
Proof.
  split; [|reflexivity].
  intros W key g. rewrite lock_shared_unfold, lock_unfold. simpl.
  unfold Keyed.for_each. rewrite length_map, hash_choices_length. auto.
Qed.

(** C2 (amended): with [R + W > K] and both sizes within [K], any subset
    a writer's [lock] can return and any subset [hash_choices(R)] can
    return share an index, hence a slot of the key; two writers' subsets
    share an index as soon as [2 * W > K]. *)
Theorem quorum_intersection (R W : nat) (key : T) (gw gw' gr : rng) :
  W <= K -> R <= K -> K < R + W ->
  (exists i,
      In i (fst (fst (g_lock W rand key gw)))
      /\ In i (fst (hash_choices R gr))
      /\ In (Call OpLock (get_lock i key)) (snd (fst (g_lock W rand key gw))))
  /\ (K < 2 * W ->
      exists i,
        In i (fst (fst (g_lock W rand key gw)))
        /\ In i (fst (fst (g_lock W rand key gw')))).
Proof.
  intros HW HR Hsum. rewrite !lock_unfold. simpl. split.
  - destruct (@hash_choices_meet K rng rand W R gw gr HW HR ltac:(lia))
      as (i & Hi & Hi').
    exists i. repeat split; try assumption.
    unfold Keyed.for_each. apply in_map_iff. exists i; split; auto.
  - intro H2. apply hash_choices_meet; lia.
Qed.

(** C7 (amended): for a subset size [W] within the [K] candidates, the
    token of the general [lock] has exactly [W] elements, in strictly
    ascending order, without duplicates, all among [0 .. K-1]. *)
Theorem lock_token_strictly_ascending (W : nat) (key : T) (g : rng) :
  W <= K ->
  let tok := fst (fst (g_lock W rand key g)) in
  length tok = W
  /\ StronglySorted lt tok
  /\ NoDup tok
  /\ (forall i, In i tok -> i < K).
Proof.
  intro HW. rewrite lock_unfold. simpl. repeat split.
  - apply hash_choices_length.
  - apply hash_choices_strict, HW.
  - apply hash_choices_NoDup, HW.
  - intro i. apply hash_choices_range, HW.
Qed.


(** The reader path in the words of the specification is the source's
    [lock_shared] whenever the two sizes agree. *)
Lemma spec_lock_shared_at_W (W : nat) (key : T) (g : rng) :
  General.spec_lock_shared ih th Nlocks K rand W key g
  = g_lock_shared W rand key g.
Proof. reflexivity. Qed.



(** C10: the specialised [lock] returns the token [0] for every key, and
    the specialised [unlock] does not look at its token: it releases the
    [K] slots [get_lock(0, key) .. get_lock(K-1, key)]. *)
Theorem special_unlock_ignores_token (key : T) (tok tok' : Special.token) :
  fst (s_lock key) = 0
  /\ s_unlock key tok = s_unlock key tok'
  /\ s_unlock key tok = map (fun i => Call OpUnlock (get_lock i key)) (seq 0 K)
  /\ length (s_unlock key tok) = K.
Proof.
  repeat split.
  unfold Special.unlock, Keyed.for_each. rewrite length_map, length_seq.
  reflexivity.
Qed.

(** C8: the slot of seed [i] and [key] is [(ih(i) xor th(key)) mod N], a
    valid index of the table; the seeds are [0 .. K-1] whatever the key;
    and the function is the same at every call, so that an unlock reaches
    the slots its lock reached. *)
Theorem get_lock_in_table (i : nat) (key : T) :
  (0 < Nlocks)%N ->
  get_lock i key = (N.lxor (ih (N.of_nat i)) (th key) mod Nlocks)%N
  /\ (get_lock i key < Nlocks)%N
  /\ General.array_of_K K = seq 0 K
  /\ (forall key' : T,
         slots (snd (s_lock key')) = map (fun j => get_lock j key') (seq 0 K))
  /\ (forall (W : nat) (g : rng),
         slots (g_unlock key (fst (fst (g_lock W rand key g))))
         = slots (snd (fst (g_lock W rand key g)))).
Proof.
  intro HN. repeat split.
  - unfold Keyed.get_lock. apply N.mod_upper_bound. lia.
  - intro key'. unfold slots, Special.lock, Keyed.for_each. simpl.
    rewrite map_map. reflexivity.
  - intros W g. rewrite lock_unfold. simpl.
    unfold slots, General.unlock, Keyed.for_each. rewrite !map_map.
    reflexivity.
Qed.
End KeyedLock.

(** ** Counting acquisitions per slot *)

Section Counting.
Variable T : Type.
Variable ih : N -> N.
Variable th : T -> N.
Variable Nlocks : N.
Variable K : nat.
Variable W : nat.
Variable rng : Type.
Variable rand : rng -> nat * rng.

Local Abbreviation get_lock := (Keyed.get_lock ih th Nlocks).
Local Abbreviation for_each := (Keyed.for_each ih th Nlocks).

(** How often the indices of [tok] designate slot [s] for [key]. *)
Local Abbreviation occ s key tok :=
  (Z.of_nat (count_occ N.eq_dec (map (fun i => get_lock i key) tok) s)).

(** What one call of kind [o] adds to the counter of [acq]/[rel]. *)
Local Abbreviation sign acq rel o :=
  (if op_eqb o acq then 1%Z else if op_eqb o rel then (-1)%Z else 0%Z).

Lemma counter_app (acq rel : op) (s : N) (a b : list call) :
  counter acq rel s (a ++ b)
  = (counter acq rel s a + counter acq rel s b)%Z.
Proof.
  induction a as [|c a IH]; simpl; [reflexivity|]. rewrite IH. lia.
Qed.

Lemma counter_for_each (acq rel o : op) (s : N) (key : T) (tok : list nat) :
  counter acq rel s (for_each o key tok)
  = (sign acq rel o * occ s key tok)%Z.
Proof.
  induction tok as [|i tok IH]; simpl.
  - lia.
  - rewrite IH. unfold delta. simpl.
    destruct (N.eq_dec (get_lock i key) s) as [E|E].
    + rewrite (proj2 (N.eqb_eq _ _) E).
      destruct (op_eqb o acq), (op_eqb o rel); lia.
    + rewrite (proj2 (N.eqb_neq _ _) E). lia.
Qed.

Lemma firstn_for_each (n : nat) (o : op) (key : T) (tok : list nat) :
  firstn n (for_each o key tok) = for_each o key (firstn n tok).
Proof. unfold Keyed.for_each. apply firstn_map. Qed.

Lemma occ_firstn_mono (s : N) (key : T) (tok : list nat) (m n : nat) :
  m <= n -> (occ s key (firstn m tok) <= occ s key (firstn n tok))%Z.
Proof.
  intro Hmn.
  replace (firstn m tok) with (firstn m (firstn n tok))
    by (rewrite firstn_firstn; f_equal; lia).
  set (l := firstn n tok).
  rewrite <- (firstn_skipn m l) at 2.
  rewrite map_app, count_occ_app. lia.
Qed.

(** An acquisition of [tok] followed by a release of [tok]: every prefix
    of it, counted for any pair of operations [acq]/[rel], is a prefix
    of the first followed by a shorter prefix of the second. *)
Lemma block_prefix (acq rel a r : op) (s : N) (key : T) (tok : list nat)
      (n : nat) :
  counter acq rel s (firstn n (for_each a key tok ++ for_each r key tok))
  = (sign acq rel a * occ s key (firstn n tok)
     + sign acq rel r * occ s key (firstn (n - length tok) tok))%Z.
Proof.
  rewrite firstn_app, counter_app, !firstn_for_each, !counter_for_each.
  unfold Keyed.for_each. rewrite length_map. reflexivity.
Qed.

Lemma block_total (acq rel a r : op) (s : N) (key : T) (tok : list nat) :
  counter acq rel s (for_each a key tok ++ for_each r key tok)
  = (sign acq rel a * occ s key tok + sign acq rel r * occ s key tok)%Z.
Proof. rewrite counter_app, !counter_for_each. reflexivity. Qed.

Lemma cycle_calls (m : General.mode) (key : T) (g : rng) :
  exists tok,
    fst (General.cycle ih th Nlocks K W rand m key g)
    = match m with
      | General.Exclusive =>
          for_each OpLock key tok ++ for_each OpUnlock key tok
      | General.Shared =>
          for_each OpLockShared key tok ++ for_each OpUnlockShared key tok
      end.
Proof.
  exists (fst (General.hash_choices K rand W g)).
  unfold General.cycle, General.lock, General.lock_shared,
    General.unlock, General.unlock_shared.
  destruct (General.hash_choices K rand W g) as [tok g'].
  destruct m; reflexivity.
Qed.

Lemma cycle_balanced (m : General.mode) (key : T) (g : rng) (s : N) :
  held_exclusive s (fst (General.cycle ih th Nlocks K W rand m key g)) = 0%Z
  /\ held_shared s (fst (General.cycle ih th Nlocks K W rand m key g)) = 0%Z.
Proof.
  destruct (cycle_calls m key g) as (tok & ->).
  unfold held_exclusive, held_shared.
  destruct m; rewrite !block_total; cbn [op_eqb]; lia.
Qed.

Lemma cycle_never_negative (m : General.mode) (key : T) (g : rng)
      (n : nat) (s : N) :
  (0 <= held_exclusive s
          (firstn n (fst (General.cycle ih th Nlocks K W rand m key g))))%Z
  /\ (0 <= held_shared s
            (firstn n (fst (General.cycle ih th Nlocks K W rand m key g))))%Z.
Proof.
  destruct (cycle_calls m key g) as (tok & ->).
  unfold held_exclusive, held_shared.
  pose proof (@occ_firstn_mono s key tok (n - length tok) n ltac:(lia)).
  destruct m; rewrite !block_prefix; cbn [op_eqb]; lia.
Qed.

Lemma cycles_cons (m : General.mode) (key : T)
      (rest : list (General.mode * T)) (g : rng) :
  fst (General.cycles ih th Nlocks K W rand ((m, key) :: rest) g)
  = fst (General.cycle ih th Nlocks K W rand m key g)
    ++ fst (General.cycles ih th Nlocks K W rand rest
              (snd (General.cycle ih th Nlocks K W rand m key g))).
Proof.
  simpl. destruct (General.cycle ih th Nlocks K W rand m key g) as [cs g'].
  simpl. destruct (General.cycles ih th Nlocks K W rand rest g'); reflexivity.
Qed.

(** C6: [unlock] and [unlock_shared] release the slots
    [get_lock(i, key)] of the indices [i] of the token, one call each and
    nothing else; and along any sequence of lock or lock_shared calls, each
    followed by its unlock on the token returned, no per-slot count of held
    acquisitions is ever negative, and all are zero at the end. *)
Theorem unlock_releases_token :
  (forall (key : T) (tok : General.token),
      General.unlock ih th Nlocks key tok
      = map (fun i => Call OpUnlock (get_lock i key)) tok
      /\ General.unlock_shared ih th Nlocks key tok
         = map (fun i => Call OpUnlockShared (get_lock i key)) tok)
  /\ (forall (reqs : list (General.mode * T)) (g : rng) (s : N),
         let cs := fst (General.cycles ih th Nlocks K W rand reqs g) in
         held_exclusive s cs = 0%Z
         /\ held_shared s cs = 0%Z
         /\ (forall n : nat,
                (0 <= held_exclusive s (firstn n cs))%Z
                /\ (0 <= held_shared s (firstn n cs))%Z)).
Proof.
  split; [intros key tok; split; reflexivity|].
  intros reqs; induction reqs as [|[m key] rest IH]; intros g s.
  - unfold held_exclusive, held_shared. simpl.
    repeat split; try reflexivity; destruct n; simpl; lia.
  - cbv zeta. rewrite cycles_cons.
    set (c := General.cycle ih th Nlocks K W rand m key g).
    destruct (IH (snd c) s) as (He & Hs & Hp). cbv zeta in He, Hs, Hp.
    destruct (cycle_balanced m key g s) as [Be Bs]. fold c in Be, Bs.
    unfold held_exclusive, held_shared in *.
    rewrite !counter_app. repeat split; try lia.
    + rewrite firstn_app, counter_app.
      pose proof (proj1 (Hp (n - length (fst c)))) as H1.
      pose proof (proj1 (cycle_never_negative m key g n s)) as H2.
      fold c in H2. unfold held_exclusive in H2. lia.
    + rewrite firstn_app, counter_app.
      pose proof (proj2 (Hp (n - length (fst c)))) as H1.
      pose proof (proj2 (cycle_never_negative m key g n s)) as H2.
      fold c in H2. unfold held_shared in H2. lia.
Qed.
End Counting.

(** ** The single-resource lock *)

Section FixedLock.
Local Open Scope Z_scope.
Variable bits : Z.

Lemma K_pow2 : Fixed.K bits = 2 ^ bits.
Proof. unfold Fixed.K. apply Z.shiftl_1_l. Qed.

Lemma K_nonneg : 0 <= Fixed.K bits.
Proof. rewrite K_pow2. apply Z.pow_nonneg. lia. Qed.

Lemma K_below_size_max : bits < 64 -> Fixed.K bits < 2 ^ 64.
Proof.
  intro Hb. rewrite K_pow2.
  destruct (Z.neg_nonneg_cases bits) as [Hneg|Hpos].
  - rewrite Z.pow_neg_r by exact Hneg. reflexivity.
  - apply Z.pow_lt_mono_r; lia.
Qed.

Lemma size_t_wrap_small (z : Z) :
  0 <= z < 2 ^ 64 -> Fixed.size_t_wrap z = z.
Proof. intro H. unfold Fixed.size_t_wrap. apply Z.mod_small, H. Qed.

(** The loop of [lock] visits [i, i+1, ...], as long as it stays within
    [size_t]. *)
Lemma lock_from_acquired (n : nat) :
  forall i : Z,
    0 <= i -> i + Z.of_nat n <= 2 ^ 64 ->
    Fixed.acquired (Fixed.lock_from n i)
    = map Z.of_nat (seq (Z.to_nat i) n).
Proof.
  induction n as [|n IH]; intros i Hi Hn; simpl.
  - reflexivity.
  - rewrite Z2Nat.id by exact Hi. f_equal.
    destruct n as [|n']; [reflexivity|].
    rewrite size_t_wrap_small by lia.
    rewrite IH by lia. f_equal. f_equal. lia.
Qed.

Lemma of_nat_seq_strict (len start : nat) :
  StronglySorted Z.lt (map Z.of_nat (seq start len)).
Proof.
  revert start; induction len as [|len IH]; intro start; simpl.
  - constructor.
  - constructor; [apply IH|].
    rewrite Forall_forall. intros x Hx.
    apply in_map_iff in Hx as (k & <- & Hk). apply in_seq in Hk. lia.
Qed.

(** On [size_t], the test [--i >= 0] cannot fail: the loop of the
    roll-back never ends by its condition. *)
Lemma rollback_never_returns (fuel : nat) :
  forall (i : Z) (u : unit),
    fst (Fixed.rollback bits fuel i) <> Fixed.Returns u.
Proof.
  induction fuel as [|fuel IH]; intros i u; simpl.
  - discriminate.
  - assert (H0 : (0 <=? Fixed.size_t_wrap (i - 1)) = true).
    { apply Z.leb_le. unfold Fixed.size_t_wrap.
      apply Z.mod_pos_bound. reflexivity. }
    rewrite H0.
    destruct (Fixed.in_table bits (Fixed.size_t_wrap (i - 1))).
    + specialize (IH (Fixed.size_t_wrap (i - 1)) u).
      destruct (Fixed.rollback bits fuel (Fixed.size_t_wrap (i - 1))).
      exact IH.
    + discriminate.
Qed.

(** From a failure at slot [i] of the table, the roll-back releases
    [i-1, ..., 0] and then leaves the array at index [2^64 - 1]. *)
Lemma rollback_overruns (n fuel : nat) :
  bits < 64 -> Z.of_nat n <= Fixed.K bits ->
  Fixed.rollback bits (S n + fuel) (Z.of_nat n)
  = (Fixed.OutOfBounds (2 ^ 64 - 1),
     map Fixed.CUnlock (rev (map Z.of_nat (seq 0 n)))).
Proof.
  intros Hb. pose proof (K_below_size_max Hb) as HK.
  induction n as [|n IH]; intro Hn.
  - change (1 + fuel)%nat with (S fuel). cbn [Fixed.rollback].
    change (Z.of_nat 0 - 1) with (-1).
    change (Fixed.size_t_wrap (-1)) with (2 ^ 64 - 1).
    replace (Fixed.in_table bits (2 ^ 64 - 1)) with false; [reflexivity|].
    symmetry. unfold Fixed.in_table. apply andb_false_iff. right.
    apply Z.ltb_ge. lia.
  - change (S (S n) + fuel)%nat with (S (S n + fuel)). cbn [Fixed.rollback].
    replace (Z.of_nat (S n) - 1) with (Z.of_nat n) by lia.
    rewrite size_t_wrap_small by lia.
    replace (0 <=? Z.of_nat n) with true by (symmetry; apply Z.leb_le; lia).
    replace (Fixed.in_table bits (Z.of_nat n)) with true.
    + rewrite IH by lia.
      rewrite seq_S, map_app, rev_app_distr. reflexivity.
    + symmetry. unfold Fixed.in_table.
      apply andb_true_iff; split; [apply Z.leb_le|apply Z.ltb_lt]; lia.
Qed.

Lemma try_all_never_false (attempt : Z -> bool) (fuel : nat) :
  fst (Fixed.try_all bits attempt fuel) <> Fixed.Returns false.
Proof.
  unfold Fixed.try_all.
  destruct (Fixed.try_from attempt (Z.to_nat (Fixed.K bits)) 0)
    as [[i ret] cs].
  destruct ret; [discriminate|].
  pose proof (rollback_never_returns fuel i) as H.
  destruct (Fixed.rollback bits fuel i) as [o cs'].
  simpl in *. destruct o as [[]| |]; try discriminate.
  exfalso. apply (H tt). reflexivity.
Qed.
End FixedLock.

(** C3: a failed [try_lock], [try_lock_until] or [try_lock_for] never
    returns [false].  When the try call on slot 2 of 16 fails, the
    roll-back releases slots 1 and 0, then decrements [i] from 0 to
    2^64 - 1 and indexes [_locks] there, outside the array. *)
Theorem try_lock_rollback_overruns :
  (forall (bits : Z) (m_try_lock : Z -> bool)
          (m_try_lock_until : Z -> Z -> bool)
          (atime rtime now : Z) (coarser : bool) (fuel : nat),
      fst (Fixed.try_lock bits m_try_lock fuel) <> Fixed.Returns false
      /\ fst (Fixed.try_lock_until bits m_try_lock_until atime fuel)
         <> Fixed.Returns false
      /\ fst (Fixed.try_lock_for bits m_try_lock_until rtime now coarser fuel)
         <> Fixed.Returns false)
  /\ (forall fuel : nat,
         Fixed.try_lock 4 (Sample.grants_below 2) (3 + fuel)
         = (Fixed.OutOfBounds (2 ^ 64 - 1),
            [Fixed.CTryLock 0 true; Fixed.CTryLock 1 true;
             Fixed.CTryLock 2 false; Fixed.CUnlock 1; Fixed.CUnlock 0]))
  /\ (forall fuel : nat,
         Fixed.try_lock 4 (Sample.grants_below 0) (1 + fuel)
         = (Fixed.OutOfBounds (2 ^ 64 - 1), [Fixed.CTryLock 0 false])).
Proof.
  split; [|split].
  - intros. repeat split; apply try_all_never_false.
  - intro fuel. reflexivity.
  - intro fuel. reflexivity.
Qed.

(** C9: with a generator of [bits]-bit numbers, [lock_shared] draws an
    index below [K = 2^bits], acquires that slot in shared mode and stores
    the index in the handle; [unlock_shared] on that handle releases the
    shared lock of that same slot. *)
Theorem lock_shared_remembers_index
        (bits : Z) (G : Type) (gen : G -> Z * G) (hd : Fixed.handle G) :
  (forall g : G, (0 <= fst (gen g) < 2 ^ bits)%Z) ->
  exists (i : Z) (g' : G),
    gen (Fixed._gen hd) = (i, g')
    /\ (0 <= i < Fixed.K bits)%Z
    /\ Fixed.lock_shared bits gen hd
       = (Fixed.Returns (Fixed.Handle g' i), [Fixed.CLockShared i])
    /\ Fixed._lockid (Fixed.Handle g' i) = i
    /\ Fixed.unlock_shared bits (Fixed.Handle g' i)
       = (Fixed.Returns (Fixed.Handle g' i), [Fixed.CUnlockShared i]).
Proof.
  intro Hgen. specialize (Hgen (Fixed._gen hd)).
  unfold Fixed.lock_shared, Fixed.unlock_shared.
  destruct (gen (Fixed._gen hd)) as [i g']. simpl in *.
  exists i, g'.
  assert (Hin : Fixed.in_table bits i = true).
  { unfold Fixed.in_table. rewrite K_pow2.
    apply andb_true_iff; split; [apply Z.leb_le|apply Z.ltb_lt]; lia. }
  rewrite Hin, K_pow2. repeat split; lia.
Qed.

Lemma lock_shared_remembers_index_witness :
  exists (i : Z) (g' : Z),
    Sample.counter_gen 4 21 = (i, g')
    /\ (0 <= i < Fixed.K 4)%Z
    /\ Fixed.lock_shared 4 (Sample.counter_gen 4) (Fixed.Handle 21%Z 0%Z)
       = (Fixed.Returns (Fixed.Handle g' i), [Fixed.CLockShared i])
    /\ Fixed._lockid (Fixed.Handle g' i) = i
    /\ Fixed.unlock_shared 4 (Fixed.Handle g' i)
       = (Fixed.Returns (Fixed.Handle g' i), [Fixed.CUnlockShared i]).
Proof.
  apply (@lock_shared_remembers_index 4 Z (Sample.counter_gen 4)
           (Fixed.Handle 21%Z 0%Z)).
  intro g. unfold Sample.counter_gen. simpl fst.
  apply Z.mod_pos_bound. reflexivity.
Defined.

(** ** Order of acquisition *)

(** C4, as stated, fails for the keyed lock: with the identity hash and a
    table of 4 slots, the two candidates of key 0 are slots 0 then 1, and
    those of key 1 are slots 1 then 0: the latter is not ascending in the
    table, and the two keys take their common slots in opposite orders.
    The general class does the same. *)
Lemma keyed_order_is_not_table_order :
  slots (snd (Special.lock Sample.id_hash Sample.id_hash 4 2 0%N))
  = [0%N; 1%N]
  /\ slots (snd (Special.lock Sample.id_hash Sample.id_hash 4 2 1%N))
     = [1%N; 0%N]
  /\ ascendingb
       (slots (snd (Special.lock Sample.id_hash Sample.id_hash 4 2 1%N)))
     = false
  /\ slots (snd (fst (General.lock Sample.id_hash Sample.id_hash 4 2 2
                        Sample.replay 1%N [0])))
     = [1%N; 0%N].
Proof. repeat split. Qed.

(** ** Quorums *)

(** C2, as stated, fails for two writers: with [K = 4], [R = 3], [W = 2]
    one has [R + W > K], yet one [lock] call can return the token [2; 3]
    and another the token [0; 1]. *)
Lemma writers_quorums_may_be_disjoint :
  4 < 3 + 2
  /\ fst (fst (General.lock Sample.id_hash Sample.id_hash 1024 4 2
                 Sample.replay 0%N [0; 1; 0]))
     = [2; 3]
  /\ fst (fst (General.lock Sample.id_hash Sample.id_hash 1024 4 2
                 Sample.replay 0%N [1; 2; 3]))
     = [0; 1]
  /\ intersectb [2; 3] [0; 1] = false
  /\ ~ (exists i, In i [2; 3] /\ In i [0; 1]).
Proof.
  split; [lia|]. repeat split.
  intros (i & H1 & H2). simpl in *. lia.
Qed.

Lemma quorum_intersection_witness :
  (2 <= 3 /\ 2 <= 3 /\ 3 < 2 + 2 /\ 3 < 2 * 2)
  /\ (exists i,
         In i (fst (fst (General.lock Sample.id_hash Sample.id_hash 1024 3 2
                           Sample.replay 7%N [0; 1])))
         /\ In i (fst (General.hash_choices 3 Sample.replay 2 [1; 1]))
         /\ In (Call OpLock (get_lock Sample.id_hash Sample.id_hash 1024 i 7%N))
               (snd (fst (General.lock Sample.id_hash Sample.id_hash 1024 3 2
                            Sample.replay 7%N [0; 1]))))
  /\ (exists i,
         In i (fst (fst (General.lock Sample.id_hash Sample.id_hash 1024 3 2
                           Sample.replay 7%N [0; 1])))
         /\ In i (fst (fst (General.lock Sample.id_hash Sample.id_hash 1024 3 2
                              Sample.replay 7%N [1; 0])))).
Proof.
  split; [lia|].
  destruct (@quorum_intersection N Sample.id_hash Sample.id_hash 1024 3
              (list nat) Sample.replay 2 2 7%N [0; 1] [1; 0] [1; 1])
    as [Hrw Hww]; [lia|lia|lia|].
  split; [exact Hrw|apply Hww; lia].
Defined.

(** C7, as stated, fails when [W] exceeds [K]: with [K = 2] and [W = 3]
    the token is [0; 0; 1], which repeats index 0 and is not strictly
    ascending. *)
Lemma oversized_token_repeats_index :
  fst (fst (General.lock Sample.id_hash Sample.id_hash 1024 2 3
              Sample.replay 5%N [1]))
  = [0; 0; 1]
  /\ ~ NoDup [0; 0; 1]
  /\ ~ StronglySorted lt [0; 0; 1].
Proof.
  split; [reflexivity|]. split.
  - intro H. inversion H as [|x l Hnin _]; subst.
    apply Hnin. left; reflexivity.
  - intro H. inversion H as [|x l _ Hall]; subst.
    inversion Hall as [|y l' Hlt _]; subst. lia.
Qed.

Lemma lock_token_strictly_ascending_witness :
  2 <= 4
  /\ let tok := fst (fst (General.lock Sample.id_hash Sample.id_hash 1024 4 2
                            Sample.replay 7%N [0; 1; 0])) in
     length tok = 2
     /\ StronglySorted lt tok
     /\ NoDup tok
     /\ (forall i, In i tok -> i < 4).
Proof.
  split; [lia|].
  apply (@lock_token_strictly_ascending N Sample.id_hash Sample.id_hash 1024
           4 (list nat) Sample.replay 2 7%N [0; 1; 0]).
  lia.
Defined.

Lemma get_lock_in_table_witness :
  (0 < 1024)%N
  /\ get_lock Sample.id_hash Sample.id_hash 1024 3 6%N
     = (N.lxor (Sample.id_hash (N.of_nat 3)) (Sample.id_hash 6) mod 1024)%N
  /\ (get_lock Sample.id_hash Sample.id_hash 1024 3 6%N < 1024)%N
  /\ General.array_of_K 8 = seq 0 8
  /\ (forall key' : N,
         slots (snd (Special.lock Sample.id_hash Sample.id_hash 1024 8 key'))
         = map (fun j => get_lock Sample.id_hash Sample.id_hash 1024 j key')
               (seq 0 8))
  /\ (forall (W : nat) (g : list nat),
         slots (General.unlock Sample.id_hash Sample.id_hash 1024 6%N
                  (fst (fst (General.lock Sample.id_hash Sample.id_hash 1024
                               8 W Sample.replay 6%N g))))
         = slots (snd (fst (General.lock Sample.id_hash Sample.id_hash 1024
                              8 W Sample.replay 6%N g)))).
Proof.
  split; [reflexivity|].
  apply (@get_lock_in_table N Sample.id_hash Sample.id_hash 1024 8
           (list nat) Sample.replay 3 6%N).
  reflexivity.
Defined.

(* ================================================================== *)
(** * Part III: further properties of the code *)
(* ================================================================== *)

(** ** The single resource: what a writer and a reader hold *)

Section FixedHeld.
Local Open Scope Z_scope.
Variable bits : Z.

(** The indices [0 .. K-1] of the table. *)
Local Abbreviation table := (map Z.of_nat (seq 0 (Z.to_nat (Fixed.K bits)))).

(** Occurrences of [s] in a list of indices. *)
Local Abbreviation cnt s l := (Z.of_nat (count_occ Z.eq_dec l s)).

Lemma fixed_held_app (s : Z) (a b : list Fixed.call) :
  Fixed.held s (a ++ b) = Fixed.held s a + Fixed.held s b.
Proof.
  induction a as [|c a IH]; simpl; [reflexivity|]. rewrite IH. lia.
Qed.

Lemma held_of_locks (s : Z) (l : list Z) :
  Fixed.held s (map Fixed.CLock l) = cnt s l.
Proof.
  induction l as [|i l IH]; simpl; [reflexivity|].
  rewrite IH. destruct (Z.eq_dec i s) as [E|E].
  - rewrite (proj2 (Z.eqb_eq _ _) E). lia.
  - rewrite (proj2 (Z.eqb_neq _ _) E). lia.
Qed.

Lemma held_of_unlocks (s : Z) (l : list Z) :
  Fixed.held s (map Fixed.CUnlock l) = - cnt s l.
Proof.
  induction l as [|i l IH]; simpl; [reflexivity|].
  rewrite IH. destruct (Z.eq_dec i s) as [E|E].
  - rewrite (proj2 (Z.eqb_eq _ _) E). lia.
  - rewrite (proj2 (Z.eqb_neq _ _) E). lia.
Qed.

Lemma held_of_granted (s : Z) (l : list Z) :
  Fixed.held s (map (fun i => Fixed.CTryLock i true) l) = cnt s l.
Proof.
  induction l as [|i l IH]; simpl; [reflexivity|].
  rewrite IH. destruct (Z.eq_dec i s) as [E|E].
  - rewrite (proj2 (Z.eqb_eq _ _) E). cbn [andb]. lia.
  - rewrite (proj2 (Z.eqb_neq _ _) E). cbn [andb]. lia.
Qed.

(** Each index of a run [a, a+1, ..., a+n-1] occurs once in it. *)
Lemma cnt_of_nat_seq (s : Z) (n : nat) :
  forall a : nat,
    cnt s (map Z.of_nat (seq a n))
    = if (Z.of_nat a <=? s) && (s <? Z.of_nat (a + n)) then 1 else 0.
Proof.
  induction n as [|n IH]; intro a; simpl.
  - destruct (Z.leb_spec (Z.of_nat a) s), (Z.ltb_spec s (Z.of_nat (a + 0)));
      simpl; lia.
  - specialize (IH (S a)).
    destruct (Z.eq_dec (Z.of_nat a) s) as [E|E].
    + rewrite Nat2Z.inj_succ, IH.
      destruct (Z.leb_spec (Z.of_nat (S a)) s),
               (Z.ltb_spec s (Z.of_nat (S a + n))),
               (Z.leb_spec (Z.of_nat a) s),
               (Z.ltb_spec s (Z.of_nat (a + S n))); simpl; lia.
    + rewrite IH.
      destruct (Z.leb_spec (Z.of_nat (S a)) s),
               (Z.ltb_spec s (Z.of_nat (S a + n))),
               (Z.leb_spec (Z.of_nat a) s),
               (Z.ltb_spec s (Z.of_nat (a + S n))); simpl; lia.
Qed.

Lemma cnt_table (s : Z) :
  cnt s table = if Fixed.in_table bits s then 1 else 0.
Proof.
  rewrite cnt_of_nat_seq. unfold Fixed.in_table.
  pose proof (K_nonneg bits).
  rewrite Nat.add_0_l, Z2Nat.id by assumption. reflexivity.
Qed.

Lemma cnt_firstn_le (s : Z) (l : list Z) (m n : nat) :
  (m <= n)%nat -> cnt s (firstn m l) <= cnt s (firstn n l).
Proof.
  intro Hmn.
  replace (firstn m l) with (firstn m (firstn n l))
    by (rewrite firstn_firstn; f_equal; lia).
  set (l' := firstn n l).
  rewrite <- (firstn_skipn m l') at 2.
  rewrite count_occ_app. lia.
Qed.

Lemma lock_from_calls (n : nat) :
  forall i : Z,
    0 <= i -> i + Z.of_nat n <= 2 ^ 64 ->
    Fixed.lock_from n i
    = map Fixed.CLock (map Z.of_nat (seq (Z.to_nat i) n)).
Proof.
  induction n as [|n IH]; intros i Hi Hn; simpl.
  - reflexivity.
  - rewrite Z2Nat.id by exact Hi. f_equal.
    destruct n as [|n']; [reflexivity|].
    rewrite size_t_wrap_small by lia.
    rewrite IH by lia. do 3 f_equal. lia.
Qed.

Lemma unlock_from_calls (n : nat) :
  forall i : Z,
    0 <= i -> i + Z.of_nat n <= 2 ^ 64 ->
    Fixed.unlock_from n i
    = map Fixed.CUnlock (map Z.of_nat (seq (Z.to_nat i) n)).
Proof.
  induction n as [|n IH]; intros i Hi Hn; simpl.
  - reflexivity.
  - rewrite Z2Nat.id by exact Hi. f_equal.
    destruct n as [|n']; [reflexivity|].
    rewrite size_t_wrap_small by lia.
    rewrite IH by lia. do 3 f_equal. lia.
Qed.

Lemma lock_calls : bits < 64 -> Fixed.lock bits = map Fixed.CLock table.
Proof.
  intro Hb. unfold Fixed.lock.
  pose proof (K_nonneg bits). pose proof (K_below_size_max Hb).
  rewrite lock_from_calls; [reflexivity|lia|]. rewrite Z2Nat.id; lia.
Qed.

Lemma unlock_calls : bits < 64 -> Fixed.unlock bits = map Fixed.CUnlock table.
Proof.
  intro Hb. unfold Fixed.unlock.
  pose proof (K_nonneg bits). pose proof (K_below_size_max Hb).
  rewrite unlock_from_calls; [reflexivity|lia|]. rewrite Z2Nat.id; lia.
Qed.

(** X1: after [lock()] every slot of the table is held exactly once, and
    nothing outside the table is touched. *)
Theorem fixed_lock_holds_every_slot (s : Z) :
  bits < 64 ->
  Fixed.held s (Fixed.lock bits) = (if Fixed.in_table bits s then 1 else 0)
  /\ length (Fixed.lock bits) = Z.to_nat (Fixed.K bits).
Proof.
  intro Hb. rewrite lock_calls by exact Hb. split.
  - rewrite held_of_locks. apply cnt_table.
  - rewrite !length_map, length_seq. reflexivity.
Qed.

(** X2: [unlock()] releases the slots [0 .. K-1], in that same ascending
    order; after [lock(); unlock();] no slot is held, and at no point in
    between is a slot released more often than it was acquired. *)
Theorem fixed_lock_unlock_balanced (s : Z) (n : nat) :
  bits < 64 ->
  Fixed.unlock bits = map Fixed.CUnlock table
  /\ Fixed.held s (Fixed.lock bits ++ Fixed.unlock bits) = 0
  /\ 0 <= Fixed.held s (firstn n (Fixed.lock bits ++ Fixed.unlock bits)).
Proof.
  intro Hb. rewrite lock_calls, unlock_calls by exact Hb.
  split; [reflexivity|]. split.
  - rewrite fixed_held_app, held_of_locks, held_of_unlocks. lia.
  - rewrite firstn_app, fixed_held_app, !firstn_map.
    rewrite held_of_locks, held_of_unlocks, !length_map.
    pose proof (@cnt_firstn_le s table (n - length table) n ltac:(lia)) as H.
    rewrite length_map, !firstn_map in H. lia.
Qed.
End FixedHeld.

(** ** The single resource: the try calls *)

Section FixedTry.
Local Open Scope Z_scope.
Variable bits : Z.

Local Abbreviation table := (map Z.of_nat (seq 0 (Z.to_nat (Fixed.K bits)))).
Local Abbreviation granted := (fun i : Z => Fixed.CTryLock i true).

(** The [for] loop of the try calls when nothing is refused. *)
Lemma try_from_granted (attempt : Z -> bool) (n : nat) :
  forall i : Z,
    0 <= i -> i + Z.of_nat n < 2 ^ 64 ->
    (forall j, i <= j < i + Z.of_nat n -> attempt j = true) ->
    Fixed.try_from attempt n i
    = (i + Z.of_nat n, true, map granted (map Z.of_nat (seq (Z.to_nat i) n))).
Proof.
  induction n as [|n IH]; intros i Hi Hn Hall.
  - simpl. f_equal. f_equal. lia.
  - cbn [Fixed.try_from]. rewrite (Hall i) by lia.
    rewrite size_t_wrap_small by lia.
    rewrite IH; [|lia|lia|intros j Hj; apply Hall; lia].
    cbn [seq map]. rewrite Z2Nat.id by exact Hi.
    replace (Z.to_nat (i + 1)) with (S (Z.to_nat i)) by lia.
    do 2 f_equal. lia.
Qed.

(** The same loop when slot [i + d] is the first to refuse. *)
Lemma try_from_refused (attempt : Z -> bool) (d : nat) :
  forall (n : nat) (i : Z),
    0 <= i -> i + Z.of_nat d < 2 ^ 64 -> (d < n)%nat ->
    (forall j, i <= j < i + Z.of_nat d -> attempt j = true) ->
    attempt (i + Z.of_nat d) = false ->
    Fixed.try_from attempt n i
    = (i + Z.of_nat d, false,
       map granted (map Z.of_nat (seq (Z.to_nat i) d))
       ++ [Fixed.CTryLock (i + Z.of_nat d) false]).
Proof.
  induction d as [|d IH]; intros n i Hi Hd Hdn Hall Hno;
    (destruct n as [|n]; [lia|]); cbn [Fixed.try_from].
  - replace (i + Z.of_nat 0) with i in * by lia. rewrite Hno. reflexivity.
  - rewrite (Hall i) by lia.
    rewrite size_t_wrap_small by lia.
    rewrite (IH n (i + 1));
      [|lia|lia|lia|intros j Hj; apply Hall; lia
       |replace (i + 1 + Z.of_nat d) with (i + Z.of_nat (S d)) by lia;
        exact Hno].
    cbn [seq map app]. rewrite Z2Nat.id by exact Hi.
    replace (Z.to_nat (i + 1)) with (S (Z.to_nat i)) by lia.
    replace (i + 1 + Z.of_nat d) with (i + Z.of_nat (S d)) by lia.
    reflexivity.
Qed.

Lemma try_all_granted (attempt : Z -> bool) (fuel : nat) :
  bits < 64 ->
  (forall j, 0 <= j < Fixed.K bits -> attempt j = true) ->
  Fixed.try_all bits attempt fuel = (Fixed.Returns true, map granted table).
Proof.
  intros Hb Hall. unfold Fixed.try_all.
  pose proof (K_nonneg bits). pose proof (K_below_size_max Hb).
  rewrite try_from_granted;
    [reflexivity|lia|rewrite Z2Nat.id; lia|].
  intros j Hj. apply Hall. rewrite Z2Nat.id in Hj; lia.
Qed.

Lemma try_all_refused (attempt : Z -> bool) (m fuel : nat) :
  bits < 64 -> Z.of_nat m < Fixed.K bits ->
  (forall j, 0 <= j < Z.of_nat m -> attempt j = true) ->
  attempt (Z.of_nat m) = false ->
  Fixed.try_all bits attempt (S m + fuel)
  = (Fixed.OutOfBounds (2 ^ 64 - 1),
     (map granted (map Z.of_nat (seq 0 m))
      ++ [Fixed.CTryLock (Z.of_nat m) false])
     ++ map Fixed.CUnlock (rev (map Z.of_nat (seq 0 m)))).
Proof.
  intros Hb Hm Hall Hno. unfold Fixed.try_all.
  pose proof (K_below_size_max Hb).
  rewrite (@try_from_refused attempt m (Z.to_nat (Fixed.K bits)) 0);
    [|lia|lia|lia|intros j Hj; apply Hall; lia|exact Hno].
  change (0 + Z.of_nat m) with (Z.of_nat m).
  rewrite rollback_overruns by lia. reflexivity.
Qed.

Lemma refused_trace_held (s : Z) (m : nat) :
  Fixed.held s
    ((map granted (map Z.of_nat (seq 0 m))
      ++ [Fixed.CTryLock (Z.of_nat m) false])
     ++ map Fixed.CUnlock (rev (map Z.of_nat (seq 0 m)))) = 0.
Proof.
  rewrite !fixed_held_app, held_of_granted, held_of_unlocks.
  pose proof (proj1 (Permutation_count_occ Z.eq_dec _ _)
                (Permutation_rev (map Z.of_nat (seq 0 m))) s) as Hc.
  rewrite <- Hc. cbn [Fixed.held Fixed.delta].
  rewrite andb_false_r. lia.
Qed.

(** X3: when the mutex grants every slot, [try_lock_until] returns
    [true] after one try call per slot, in ascending order and with no
    release; [try_lock], which is declared [void], makes the same calls
    on its own mutex answers.  Every slot of the table is then held
    once. *)
Theorem try_lock_all_granted
        (m_try_lock : Z -> bool) (m_try_lock_until : Z -> Z -> bool)
        (atime : Z) (fuel : nat) (s : Z) :
  bits < 64 ->
  (forall j, 0 <= j < Fixed.K bits -> m_try_lock j = true) ->
  (forall j, 0 <= j < Fixed.K bits -> m_try_lock_until atime j = true) ->
  Fixed.try_lock_until bits m_try_lock_until atime fuel
  = (Fixed.Returns true, map granted table)
  /\ snd (Fixed.try_lock bits m_try_lock fuel) = map granted table
  /\ Fixed.held s (map granted table)
     = (if Fixed.in_table bits s then 1 else 0).
Proof.
  intros Hb H1 H2. unfold Fixed.try_lock, Fixed.try_lock_until.
  rewrite !try_all_granted by assumption.
  repeat split. rewrite held_of_granted. apply cnt_table.
Qed.

(** X4: when slot [m] of the table is the first to refuse, [try_lock] and
    [try_lock_until] have tried the slots [0 .. m], release [m-1 .. 0] in
    descending order, which leaves none of them held, and then index the
    array at [2^64 - 1]. *)
Theorem try_lock_first_refusal
        (m_try_lock : Z -> bool) (m_try_lock_until : Z -> Z -> bool)
        (atime : Z) (m fuel : nat) (s : Z) :
  bits < 64 -> Z.of_nat m < Fixed.K bits ->
  (forall j, 0 <= j < Z.of_nat m -> m_try_lock j = true) ->
  m_try_lock (Z.of_nat m) = false ->
  (forall j, 0 <= j < Z.of_nat m -> m_try_lock_until atime j = true) ->
  m_try_lock_until atime (Z.of_nat m) = false ->
  let trace :=
    (map granted (map Z.of_nat (seq 0 m))
     ++ [Fixed.CTryLock (Z.of_nat m) false])
    ++ map Fixed.CUnlock (rev (map Z.of_nat (seq 0 m))) in
  Fixed.try_lock bits m_try_lock (S m + fuel)
  = (Fixed.OutOfBounds (2 ^ 64 - 1), trace)
  /\ Fixed.try_lock_until bits m_try_lock_until atime (S m + fuel)
     = (Fixed.OutOfBounds (2 ^ 64 - 1), trace)
  /\ Fixed.held s trace = 0.
Proof.
  intros Hb Hm H1 N1 H2 N2 trace. unfold Fixed.try_lock, Fixed.try_lock_until.
  rewrite !try_all_refused by assumption.
  repeat split. apply refused_trace_held.
Qed.
End FixedTry.

(** ** The single resource: the handle and its remembered index *)

Section FixedShared.
Local Open Scope Z_scope.
Variable bits : Z.
Variable G : Type.
Variable gen : G -> Z * G.

(** The generator yields [bits]-bit numbers. *)
Local Abbreviation bits_wide := (forall g : G, 0 <= fst (gen g) < 2 ^ bits).

Lemma drawn_in_table (g : G) :
  bits_wide -> Fixed.in_table bits (fst (gen g)) = true.
Proof.
  intro Hgen. specialize (Hgen g). unfold Fixed.in_table. rewrite K_pow2.
  apply andb_true_iff; split; [apply Z.leb_le|apply Z.ltb_lt]; lia.
Qed.

Lemma lock_shared_run (hd : Fixed.handle G) :
  bits_wide ->
  Fixed.lock_shared bits gen hd
  = (Fixed.Returns (Fixed.Handle (snd (gen (Fixed._gen hd)))
                                 (fst (gen (Fixed._gen hd)))),
     [Fixed.CLockShared (fst (gen (Fixed._gen hd)))]).
Proof.
  intro Hgen. pose proof (drawn_in_table (Fixed._gen hd) Hgen) as Hin.
  unfold Fixed.lock_shared.
  destruct (gen (Fixed._gen hd)) as [i g']. simpl in *.
  rewrite Hin. reflexivity.
Qed.

Lemma unlock_shared_run (g : G) (i : Z) :
  Fixed.in_table bits i = true ->
  Fixed.unlock_shared bits (Fixed.Handle g i)
  = (Fixed.Returns (Fixed.Handle g i), [Fixed.CUnlockShared i]).
Proof.
  intro Hin. unfold Fixed.unlock_shared. simpl. rewrite Hin. reflexivity.
Qed.

Lemma fixed_held_shared_app (s : Z) (a b : list Fixed.call) :
  Fixed.held_shared s (a ++ b)
  = Fixed.held_shared s a + Fixed.held_shared s b.
Proof.
  induction a as [|c a IH]; simpl; [reflexivity|]. rewrite IH. lia.
Qed.

Lemma held_shared_of_locks (s : Z) (l : list Z) :
  Fixed.held_shared s (map Fixed.CLock l) = 0.
Proof. induction l as [|i l IH]; simpl; [reflexivity|exact IH]. Qed.

Lemma held_shared_of_unlocks (s : Z) (l : list Z) :
  Fixed.held_shared s (map Fixed.CUnlock l) = 0.
Proof. induction l as [|i l IH]; simpl; [reflexivity|exact IH]. Qed.

(** X5: the slot a reader takes with [lock_shared] is always one of the
    slots a writer takes with [lock]: the writer's [lock] has a call on
    it and holds it once. *)
Theorem fixed_reader_meets_writer (hd : Fixed.handle G) :
  bits < 64 -> bits_wide ->
  exists (i : Z) (hd' : Fixed.handle G),
    Fixed.lock_shared bits gen hd = (Fixed.Returns hd', [Fixed.CLockShared i])
    /\ In (Fixed.CLock i) (Fixed.lock bits)
    /\ Fixed.held i (Fixed.lock bits) = 1.
Proof.
  intros Hb Hgen.
  pose proof (drawn_in_table (Fixed._gen hd) Hgen) as Hin.
  eexists; eexists. split; [apply lock_shared_run, Hgen|].
  rewrite lock_calls by exact Hb. split.
  - apply in_map, in_map_iff.
    unfold Fixed.in_table in Hin. apply andb_true_iff in Hin as [H0 HK].
    apply Z.leb_le in H0. apply Z.ltb_lt in HK.
    exists (Z.to_nat (fst (gen (Fixed._gen hd)))). split; [lia|].
    apply in_seq. lia.
  - rewrite held_of_locks, cnt_table, Hin. reflexivity.
Qed.

(** X6: [try_lock_shared], [try_lock_shared_until] and
    [try_lock_shared_for] each draw one index, the one [lock_shared] would
    draw from the same handle, store it in the handle whether or not the
    mutex grants the lock, make a single try call on that slot and return
    the answer of the mutex; [unlock_shared] on the resulting handle
    addresses that slot. *)
Theorem try_lock_shared_same_slot
        (m_shared : Z -> bool) (m_until m_for : Z -> Z -> bool)
        (atime rtime : Z) (hd : Fixed.handle G) :
  bits_wide ->
  exists (i : Z) (g' : G),
    gen (Fixed._gen hd) = (i, g')
    /\ 0 <= i < Fixed.K bits
    /\ Fixed.lock_shared bits gen hd
       = (Fixed.Returns (Fixed.Handle g' i), [Fixed.CLockShared i])
    /\ Fixed.try_lock_shared bits gen m_shared hd
       = (Fixed.Returns (Fixed.Handle g' i, m_shared i),
          [Fixed.TryShared i (m_shared i)])
    /\ Fixed.try_lock_shared_until bits gen m_until atime hd
       = (Fixed.Returns (Fixed.Handle g' i, m_until atime i),
          [Fixed.TryShared i (m_until atime i)])
    /\ Fixed.try_lock_shared_for bits gen m_for rtime hd
       = (Fixed.Returns (Fixed.Handle g' i, m_for rtime i),
          [Fixed.TryShared i (m_for rtime i)])
    /\ Fixed.unlock_shared bits (Fixed.Handle g' i)
       = (Fixed.Returns (Fixed.Handle g' i), [Fixed.CUnlockShared i]).
Proof.
  intro Hgen.
  pose proof (drawn_in_table (Fixed._gen hd) Hgen) as Hin.
  pose proof (Hgen (Fixed._gen hd)) as Hr.
  unfold Fixed.lock_shared, Fixed.try_lock_shared,
    Fixed.try_lock_shared_until, Fixed.try_lock_shared_for,
    Fixed.unlock_shared.
  destruct (gen (Fixed._gen hd)) as [i g']. simpl in *.
  exists i, g'. rewrite Hin, K_pow2. repeat split; lia.
Qed.

(** X7: the handle remembers one index only.  After two [lock_shared]
    calls on one handle, both [unlock_shared] calls release the slot of
    the second; unless the two draws coincide, the first slot stays held
    in shared mode and the second is released once too often. *)
Theorem second_lock_shared_forgets_first (hd : Fixed.handle G) :
  bits_wide ->
  exists (i1 i2 : Z) (g1 g2 : G),
    gen (Fixed._gen hd) = (i1, g1)
    /\ gen g1 = (i2, g2)
    /\ Fixed.nested_shared bits gen hd
       = (Fixed.Returns (Fixed.Handle g2 i2),
          [Fixed.CLockShared i1; Fixed.CLockShared i2;
           Fixed.CUnlockShared i2; Fixed.CUnlockShared i2])
    /\ Fixed.held_shared i1
         [Fixed.CLockShared i1; Fixed.CLockShared i2;
          Fixed.CUnlockShared i2; Fixed.CUnlockShared i2]
       = (if i1 =? i2 then 0 else 1)
    /\ Fixed.held_shared i2
         [Fixed.CLockShared i1; Fixed.CLockShared i2;
          Fixed.CUnlockShared i2; Fixed.CUnlockShared i2]
       = (if i1 =? i2 then 0 else -1).
Proof.
  intro Hgen.
  pose proof (drawn_in_table (Fixed._gen hd) Hgen) as Hin1.
  destruct (gen (Fixed._gen hd)) as [i1 g1] eqn:E1. simpl in Hin1.
  pose proof (drawn_in_table g1 Hgen) as Hin2.
  destruct (gen g1) as [i2 g2] eqn:E2. simpl in Hin2.
  exists i1, i2, g1, g2.
  split; [reflexivity|]. split; [exact E2|]. split; [|split].
  - unfold Fixed.nested_shared.
    rewrite (lock_shared_run hd Hgen), E1. cbn [Fixed.and_then fst snd].
    rewrite (lock_shared_run (Fixed.Handle g1 i1) Hgen).
    cbn [Fixed._gen]. rewrite E2. cbn [Fixed.and_then fst snd].
    rewrite (@unlock_shared_run g2 i2 Hin2). cbn [Fixed.and_then].
    rewrite (@unlock_shared_run g2 i2 Hin2). reflexivity.
  - cbn [Fixed.held_shared Fixed.delta_shared].
    rewrite Z.eqb_refl, (Z.eqb_sym i2 i1).
    destruct (i1 =? i2); reflexivity.
  - cbn [Fixed.held_shared Fixed.delta_shared].
    rewrite Z.eqb_refl. destruct (i1 =? i2); reflexivity.
Qed.
End FixedShared.

(** X8: the example program for the single resource returns, for every
    generator of 4-bit numbers and every initial handle: it locks and
    unlocks the 16 slots, then takes and releases one slot in shared mode,
    and ends with no slot held in either mode. *)
Theorem main_fixed_releases_everything
        (G : Type) (gen : G -> Z * G) (mut : Fixed.handle G) (s : Z) :
  (forall g : G, (0 <= fst (gen g) < 2 ^ 4)%Z) ->
  exists (i : Z) (mut' : Fixed.handle G),
    (0 <= i < 16)%Z
    /\ Example.main_fixed gen mut
       = (Fixed.Returns mut',
          Fixed.lock 4 ++ Fixed.unlock 4
          ++ [Fixed.CLockShared i; Fixed.CUnlockShared i])
    /\ length (Fixed.lock 4) = 16
    /\ length (Fixed.unlock 4) = 16
    /\ Fixed.held s (Fixed.lock 4 ++ Fixed.unlock 4
                     ++ [Fixed.CLockShared i; Fixed.CUnlockShared i]) = 0%Z
    /\ Fixed.held_shared s
         (Fixed.lock 4 ++ Fixed.unlock 4
          ++ [Fixed.CLockShared i; Fixed.CUnlockShared i]) = 0%Z.
Proof.
  intro Hgen.
  pose proof (drawn_in_table 4 gen (Fixed._gen mut) Hgen) as Hin.
  pose proof (Hgen (Fixed._gen mut)) as Hr.
  exists (fst (gen (Fixed._gen mut))).
  exists (Fixed.Handle (snd (gen (Fixed._gen mut)))
                       (fst (gen (Fixed._gen mut)))).
  split; [change 16%Z with (2 ^ 4)%Z; exact Hr|].
  split.
  { unfold Example.main_fixed.
    rewrite (lock_shared_run 4 gen mut Hgen). cbn [Fixed.and_then].
    rewrite (@unlock_shared_run 4 G _ _ Hin). rewrite <- app_assoc.
    reflexivity. }
  split; [reflexivity|]. split; [reflexivity|].
  assert (Hb : (4 < 64)%Z) by reflexivity.
  rewrite (lock_calls Hb), (unlock_calls Hb).
  split.
  - rewrite !fixed_held_app, held_of_locks, held_of_unlocks.
    cbn [Fixed.held Fixed.delta]. lia.
  - rewrite !fixed_held_shared_app, held_shared_of_locks,
      held_shared_of_unlocks.
    cbn [Fixed.held_shared Fixed.delta_shared].
    destruct (Z.eqb (fst (gen (Fixed._gen mut))) s); reflexivity.
Qed.

(** ** The keyed lock: edge cases of the subset *)

Section Oversized.
Variable T : Type.
Variable ih : N -> N.
Variable th : T -> N.
Variable Nlocks : N.
Variable K : nat.
Variable rng : Type.
Variable rand : rng -> nat * rng.

Local Abbreviation get_lock := (Keyed.get_lock ih th Nlocks).

(** An ascending list is determined by its elements with multiplicity. *)
Lemma sorted_perm_unique (l1 : list nat) :
  forall l2 : list nat,
    StronglySorted le l1 -> StronglySorted le l2 ->
    Permutation l1 l2 -> l1 = l2.
Proof.
  induction l1 as [|a t1 IH]; intros [|b t2] H1 H2 Hp.
  - reflexivity.
  - apply Permutation_nil in Hp. discriminate.
  - apply Permutation_sym, Permutation_nil in Hp. discriminate.
  - inversion H1 as [|? ? Hs1 Hf1]; inversion H2 as [|? ? Hs2 Hf2]; subst.
    rewrite Forall_forall in Hf1, Hf2.
    assert (Hba : b <= a).
    { assert (Hin : In a (b :: t2))
        by (eapply Permutation_in; [exact Hp|left; reflexivity]).
      destruct Hin as [->|Hin]; [lia|exact (Hf2 _ Hin)]. }
    assert (Hab : a <= b).
    { assert (Hin : In b (a :: t1))
        by (eapply Permutation_in;
            [apply Permutation_sym; exact Hp|left; reflexivity]).
      destruct Hin as [->|Hin]; [lia|exact (Hf1 _ Hin)]. }
    assert (a = b) by lia. subst b. f_equal.
    apply IH; [assumption|assumption|].
    eapply Permutation_cons_inv. exact Hp.
Qed.

Lemma padded_seq_sorted (m len : nat) :
  StronglySorted le (repeat 0 m ++ seq 0 len).
Proof.
  induction m as [|m IH]; simpl.
  - generalize 0 as start.
    induction len as [|len IHl]; intro start; simpl; constructor.
    + apply IHl.
    + rewrite Forall_forall. intros x Hx. apply in_seq in Hx. lia.
  - constructor; [exact IH|].
    rewrite Forall_forall. intros x _. lia.
Qed.

Lemma count_occ_map_le (f : nat -> N) (l : list nat) (x : nat) :
  count_occ Nat.eq_dec l x <= count_occ N.eq_dec (map f l) (f x).
Proof.
  induction l as [|y l IH]; simpl; [lia|].
  destruct (Nat.eq_dec y x) as [->|Hne].
  - destruct (N.eq_dec (f x) (f x)); [lia|congruence].
  - destruct (N.eq_dec (f y) (f x)); lia.
Qed.

Lemma hash_choices_padded (k : nat) (g : rng) :
  K <= k ->
  fst (General.hash_choices K rand k g) = repeat 0 (k - K) ++ seq 0 K.
Proof.
  intro Hk.
  apply sorted_perm_unique.
  - apply Sorted_StronglySorted; [intros x y z; apply Nat.le_trans|].
    apply hash_choices_sorted.
  - apply padded_seq_sorted.
  - unfold General.hash_choices.
    pose proof (random_shuffle_perm rand (General.array_of_K K) g) as Hp.
    destruct (General.random_shuffle rand (General.array_of_K K) g)
      as [c' g'].
    simpl in *. unfold General.array_of_K in Hp.
    apply Permutation_sym.
    eapply Permutation_trans; [|apply sort_perm].
    unfold General.resize.
    assert (Hlen : length c' = K)
      by (rewrite <- (Permutation_length Hp); apply length_seq).
    rewrite firstn_all2 by lia. rewrite Hlen.
    eapply Permutation_trans; [apply Permutation_app_comm|].
    apply Permutation_app_tail. exact Hp.
Qed.

(** X9: asked for [k >= K] indices, [hash_choices] returns the [K]
    candidates once each, preceded by [k - K] further copies of index 0:
    [resize] pads the shuffled vector with zeros and [sort] moves them to
    the front.  The tokens of [lock] and [lock_shared] have that shape
    when [W >= K]. *)
Theorem hash_choices_oversized (k : nat) (key : T) (g : rng) :
  K <= k ->
  fst (General.hash_choices K rand k g) = repeat 0 (k - K) ++ seq 0 K
  /\ fst (fst (General.lock ih th Nlocks K k rand key g))
     = repeat 0 (k - K) ++ seq 0 K
  /\ fst (fst (General.lock_shared ih th Nlocks K k rand key g))
     = repeat 0 (k - K) ++ seq 0 K.
Proof.
  intro Hk. rewrite lock_unfold, lock_shared_unfold. cbn [fst].
  repeat split; apply hash_choices_padded, Hk.
Qed.

(** X10: with a writer quorum [W] larger than the [K >= 1] candidates,
    one [lock] call locks the slot of candidate 0 at least [W - K + 1]
    times. *)
Theorem oversized_quorum_relocks_slot (W : nat) (key : T) (g : rng) :
  0 < K -> K < W ->
  (Z.of_nat (W - K + 1)
   <= held_exclusive (get_lock 0 key)
        (snd (fst (General.lock ih th Nlocks K W rand key g))))%Z.
Proof.
  intros HK HW. rewrite lock_unfold. cbn [fst snd].
  unfold held_exclusive. rewrite counter_for_each. cbn [op_eqb].
  pose proof (@count_occ_map_le (fun i => get_lock i key)
                (fst (General.hash_choices K rand W g)) 0) as Hle.
  assert (Hc : W - K + 1
               <= count_occ Nat.eq_dec
                    (fst (General.hash_choices K rand W g)) 0).
  { rewrite hash_choices_padded by lia.
    rewrite count_occ_app, count_occ_repeat_eq by reflexivity.
    destruct K as [|K']; [lia|]. simpl. lia. }
  lia.
Qed.
End Oversized.

(** ** The keyed lock: order among calls for one key *)

Section CommonOrder.
Variable T : Type.
Variable ih : N -> N.
Variable th : T -> N.
Variable Nlocks : N.
Variable K : nat.
Variable W : nat.
Variable rng : Type.
Variable rand : rng -> nat * rng.

(** The indices of [a] that also occur in [b], in the order of [a]. *)
Local Abbreviation common a b :=
  (filter (fun i : nat => existsb (Nat.eqb i) b) a).

Lemma filter_strict_sorted (f : nat -> bool) (l : list nat) :
  StronglySorted lt l -> StronglySorted lt (filter f l).
Proof.
  induction 1 as [|x t Hst IH Hall]; simpl.
  - constructor.
  - destruct (f x); [|exact IH].
    constructor; [exact IH|].
    rewrite Forall_forall in *. intros y Hy.
    apply Hall. apply filter_In in Hy. tauto.
Qed.

Lemma common_In (a b : list nat) (x : nat) :
  In x (common a b) <-> In x a /\ In x b.
Proof.
  rewrite filter_In. split; intros [Ha Hb]; split; try assumption.
  - apply existsb_exists in Hb as (y & Hy & E).
    apply Nat.eqb_eq in E. subst y. exact Hy.
  - apply existsb_exists. exists x. split; [exact Hb|apply Nat.eqb_refl].
Qed.

(** X11: a writer and a reader of the same key lock the candidates they
    have in common in the same relative order: restricted to the common
    indices, the two tokens, and hence the two sequences of slots, are
    the same list. *)
Theorem same_key_common_order (key : T) (gw gr : rng) :
  W <= K ->
  let tw := fst (fst (General.lock ih th Nlocks K W rand key gw)) in
  let tr := fst (fst (General.lock_shared ih th Nlocks K W rand key gr)) in
  common tw tr = common tr tw
  /\ map (fun i => Keyed.get_lock ih th Nlocks i key) (common tw tr)
     = map (fun i => Keyed.get_lock ih th Nlocks i key) (common tr tw).
Proof.
  intro HW. rewrite lock_unfold, lock_shared_unfold. cbn [fst].
  assert (E : common (fst (General.hash_choices K rand W gw))
                     (fst (General.hash_choices K rand W gr))
              = common (fst (General.hash_choices K rand W gr))
                       (fst (General.hash_choices K rand W gw))).
  { apply strict_sorted_unique.
    - apply filter_strict_sorted, hash_choices_strict, HW.
    - apply filter_strict_sorted, hash_choices_strict, HW.
    - intro x. rewrite !common_In. tauto. }
  cbv zeta. rewrite E. split; reflexivity.
Qed.
End CommonOrder.

(** ** The keyed lock: the specialisation *)

Section SpecialMore.
Variable T : Type.
Variable ih : N -> N.
Variable th : T -> N.
Variable Nlocks : N.
Variable K : nat.
Variable engine : Type.
Variable dist : engine -> nat * engine.

Local Abbreviation get_lock := (Keyed.get_lock ih th Nlocks).
Local Abbreviation for_each := (Keyed.for_each ih th Nlocks).
Local Abbreviation s_lock := (Special.lock ih th Nlocks K).
Local Abbreviation s_lock_shared := (Special.lock_shared ih th Nlocks dist).
Local Abbreviation s_unlock_shared := (Special.unlock_shared ih th Nlocks).
Local Abbreviation s_cycle := (Special.cycle ih th Nlocks K dist).
Local Abbreviation s_cycles := (Special.cycles ih th Nlocks K dist).

Lemma special_lock_shared_unfold (key : T) (e : engine) :
  s_lock_shared key e
  = (fst (dist e), for_each OpLockShared key [fst (dist e)], snd (dist e)).
Proof. unfold Special.lock_shared. destruct (dist e); reflexivity. Qed.

Lemma special_cycle_calls (m : General.mode) (key : T) (e : engine) :
  exists tok,
    fst (s_cycle m key e)
    = match m with
      | General.Exclusive =>
          for_each OpLock key tok ++ for_each OpUnlock key tok
      | General.Shared =>
          for_each OpLockShared key tok ++ for_each OpUnlockShared key tok
      end.
Proof.
  destruct m.
  - exists (seq 0 K). reflexivity.
  - exists [fst (dist e)]. unfold Special.cycle.
    rewrite special_lock_shared_unfold. reflexivity.
Qed.

Lemma special_cycles_cons (m : General.mode) (key : T)
      (rest : list (General.mode * T)) (e : engine) :
  fst (s_cycles ((m, key) :: rest) e)
  = fst (s_cycle m key e) ++ fst (s_cycles rest (snd (s_cycle m key e))).
Proof.
  simpl. destruct (Special.cycle ih th Nlocks K dist m key e) as [cs e'].
  simpl. destruct (Special.cycles ih th Nlocks K dist rest e'); reflexivity.
Qed.

(** X12: in the specialisation too, along any sequence of [lock] or
    [lock_shared] calls each followed by its unlock on the token
    returned, no per-slot count of held acquisitions is ever negative,
    and all are zero at the end. *)
Theorem special_cycles_balanced
        (reqs : list (General.mode * T)) (e : engine) (s : N) :
  let cs := fst (s_cycles reqs e) in
  held_exclusive s cs = 0%Z
  /\ held_shared s cs = 0%Z
  /\ (forall n : nat,
         (0 <= held_exclusive s (firstn n cs))%Z
         /\ (0 <= held_shared s (firstn n cs))%Z).
Proof.
  revert e; induction reqs as [|[m key] rest IH]; intro e.
  - unfold held_exclusive, held_shared. simpl.
    repeat split; try reflexivity; destruct n; simpl; lia.
  - cbv zeta. rewrite special_cycles_cons.
    destruct (IH (snd (s_cycle m key e))) as (He & Hs & Hp).
    cbv zeta in He, Hs, Hp.
    destruct (special_cycle_calls m key e) as (tok & Ec). rewrite Ec.
    unfold held_exclusive, held_shared in *.
    rewrite !counter_app.
    assert (Hb : counter OpLock OpUnlock s
                   match m with
                   | General.Exclusive =>
                       for_each OpLock key tok ++ for_each OpUnlock key tok
                   | General.Shared =>
                       for_each OpLockShared key tok
                       ++ for_each OpUnlockShared key tok
                   end = 0%Z
                 /\ counter OpLockShared OpUnlockShared s
                      match m with
                      | General.Exclusive =>
                          for_each OpLock key tok ++ for_each OpUnlock key tok
                      | General.Shared =>
                          for_each OpLockShared key tok
                          ++ for_each OpUnlockShared key tok
                      end = 0%Z)
      by (destruct m; rewrite !block_total; cbn [op_eqb]; lia).
    destruct Hb as [Be Bs].
    split; [lia|]. split; [lia|]. intro n.
    pose proof (@occ_firstn_mono T ih th Nlocks s key tok
                  (n - length tok) n ltac:(lia)) as Hmono.
    rewrite !firstn_app, !counter_app.
    destruct (Hp (n - length
                        match m with
                        | General.Exclusive =>
                            for_each OpLock key tok
                            ++ for_each OpUnlock key tok
                        | General.Shared =>
                            for_each OpLockShared key tok
                            ++ for_each OpUnlockShared key tok
                        end)) as [P1 P2].
    destruct m; rewrite !block_prefix; cbn [op_eqb]; lia.
Qed.

(** X13: with a distribution that yields indices below [K], the slot a
    reader takes with the specialised [lock_shared] is one of the slots a
    writer of the same key takes with [lock]. *)
Theorem special_reader_meets_writer (key : T) (e : engine) :
  (forall e' : engine, fst (dist e') < K) ->
  exists i : nat,
    i < K
    /\ snd (fst (s_lock_shared key e))
       = [Call OpLockShared (get_lock i key)]
    /\ In (Call OpLock (get_lock i key)) (snd (s_lock key))
    /\ (1 <= held_exclusive (get_lock i key) (snd (s_lock key)))%Z.
Proof.
  intro Hd. exists (fst (dist e)). specialize (Hd e).
  split; [exact Hd|]. split; [rewrite special_lock_shared_unfold; reflexivity|].
  assert (Hin : In (fst (dist e)) (seq 0 K)) by (apply in_seq; lia).
  split.
  - unfold Special.lock. cbn [snd]. unfold Keyed.for_each.
    apply in_map_iff. exists (fst (dist e)). split; [reflexivity|exact Hin].
  - unfold Special.lock, held_exclusive. cbn [snd].
    rewrite counter_for_each. cbn [op_eqb].
    pose proof (@count_occ_map_le (fun i => get_lock i key) (seq 0 K)
                  (fst (dist e))) as Hle.
    apply (count_occ_In Nat.eq_dec) in Hin. lia.
Qed.

(** X14: the specialised [unlock_shared] releases the slot of the token
    it is given: after [lock_shared], an [unlock_shared] with another
    token leaves every shared count at zero exactly when the two
    candidates designate the same slot. *)
Theorem special_unlock_shared_needs_token
        (key : T) (e : engine) (tok : Special.token) :
  let i := fst (fst (s_lock_shared key e)) in
  let cs := snd (fst (s_lock_shared key e)) ++ s_unlock_shared key tok in
  (forall s : N, held_shared s cs = 0%Z) <-> get_lock i key = get_lock tok key.
Proof.
  rewrite special_lock_shared_unfold. cbn [fst snd].
  unfold Special.unlock_shared, held_shared, Keyed.for_each. cbn [map app].
  split.
  - intro H. specialize (H (get_lock (fst (dist e)) key)).
    cbn [counter] in H. unfold delta in H. cbn [what slot op_eqb] in H.
    rewrite N.eqb_refl in H.
    destruct (N.eqb_spec (get_lock tok key) (get_lock (fst (dist e)) key))
      as [E|E]; [congruence|lia].
  - intros E s. cbn [counter]. unfold delta. cbn [what slot op_eqb].
    rewrite E. destruct (N.eqb (get_lock tok key) s); lia.
Qed.
End SpecialMore.

(** ** The keyed lock: slots of one key *)

Section Slots.
Variable T : Type.
Variable ih : N -> N.
Variable th : T -> N.
Variable Nlocks : N.
Variable K : nat.

Local Abbreviation get_lock := (Keyed.get_lock ih th Nlocks).
Local Abbreviation s_lock := (Special.lock ih th Nlocks K).

Lemma xor_low_bits_inj (n a b x : N) :
  (a < 2 ^ n)%N -> (b < 2 ^ n)%N ->
  (N.lxor a x mod 2 ^ n = N.lxor b x mod 2 ^ n)%N -> a = b.
Proof.
  intros Ha Hb H. apply N.bits_inj. intro m.
  destruct (N.lt_ge_cases m n) as [Hlt|Hge].
  - apply (f_equal (fun z => N.testbit z m)) in H.
    rewrite !N.mod_pow2_bits_low, !N.lxor_spec in H by exact Hlt.
    destruct (N.testbit a m), (N.testbit b m), (N.testbit x m);
      simpl in H; congruence.
  - rewrite <- (N.mod_small a (2 ^ n)), <- (N.mod_small b (2 ^ n))
      by assumption.
    rewrite !N.mod_pow2_bits_high by exact Hge. reflexivity.
Qed.

Lemma slots_of_special_lock (key : T) :
  slots (snd (s_lock key)) = map (fun i => get_lock i key) (seq 0 K).
Proof.
  unfold slots, Special.lock, Keyed.for_each. cbn [snd].
  rewrite map_map. reflexivity.
Qed.

(** X15: when [std::hash] on indices is the identity and the table has
    [2^n >= K] slots, the [K] candidates of a key designate [K] different
    slots: a writer's [lock] never locks one mutex twice. *)
Theorem candidate_slots_distinct (n : N) (key : T) :
  (forall x : N, ih x = x) -> Nlocks = (2 ^ n)%N ->
  (N.of_nat K <= 2 ^ n)%N ->
  NoDup (slots (snd (s_lock key)))
  /\ (forall i j : nat,
         i < K -> j < K -> get_lock i key = get_lock j key -> i = j).
Proof.
  intros Hid HN HK.
  assert (Hinj : forall i j : nat,
             i < K -> j < K -> get_lock i key = get_lock j key -> i = j).
  { intros i j Hi Hj E. unfold Keyed.get_lock, Keyed.h in E.
    rewrite !Hid, HN in E.
    apply xor_low_bits_inj in E; lia. }
  split; [|exact Hinj].
  rewrite slots_of_special_lock.
  apply NoDup_map_NoDup_ForallPairs; [|apply seq_NoDup].
  intros i j Hi Hj E. apply in_seq in Hi, Hj. apply Hinj; lia.
Qed.

Lemma count_occ_two (f : nat -> N) (l : list nat) (i j : nat) :
  In i l -> In j l -> i <> j -> f i = f j ->
  2 <= count_occ N.eq_dec (map f l) (f i).
Proof.
  intros Hi Hj Hne E.
  destruct (in_split _ _ Hi) as (l1 & l2 & ->).
  rewrite map_app, count_occ_app. simpl.
  destruct (N.eq_dec (f i) (f i)) as [_|C]; [|congruence].
  assert (Hj' : In j l1 \/ In j l2).
  { apply in_app_or in Hj as [H|[H|H]]; [left; exact H|congruence|right; exact H]. }
  destruct Hj' as [H|H];
    apply (in_map f) in H; rewrite <- E in H;
    apply (count_occ_In N.eq_dec) in H; lia.
Qed.

(** X16: when two candidates of a key designate the same slot, the
    specialised [lock] locks that mutex at least twice within one call. *)
Theorem colliding_candidates_lock_twice (key : T) (i j : nat) :
  i < K -> j < K -> i <> j -> get_lock i key = get_lock j key ->
  (2 <= held_exclusive (get_lock i key) (snd (s_lock key)))%Z.
Proof.
  intros Hi Hj Hne E.
  unfold Special.lock, held_exclusive. cbn [snd].
  rewrite counter_for_each. cbn [op_eqb].
  pose proof (@count_occ_two (fun k => get_lock k key) (seq 0 K) i j) as H.
  cbv beta in H.
  specialize (H ltac:(apply in_seq; lia) ltac:(apply in_seq; lia) Hne E).
  lia.
Qed.
End Slots.

(** ** The handles of the keyed lock and the example program *)

Section Handles.
Variable T : Type.
Variable ih : N -> N.
Variable th : T -> N.
Variable Nlocks : N.
Variable K : nat.
Variable W : nat.
Variable rng : Type.
Variable rand : rng -> nat * rng.

Local Abbreviation for_each := (Keyed.for_each ih th Nlocks).
Local Abbreviation h_lock := (General.shared_mutex_lock ih th Nlocks K W rand).
Local Abbreviation h_lock_shared :=
  (General.shared_mutex_lock_shared ih th Nlocks K W rand).
Local Abbreviation h_unlock := (General.shared_mutex_unlock ih th Nlocks).
Local Abbreviation h_unlock_shared :=
  (General.shared_mutex_unlock_shared ih th Nlocks).

Lemma handle_lock_unfold (m : General.shared_mutex T) (g : rng) :
  h_lock m g
  = (General.SharedMutex (General._key m)
       (fst (General.hash_choices K rand W g)),
     for_each OpLock (General._key m) (fst (General.hash_choices K rand W g)),
     snd (General.hash_choices K rand W g)).
Proof.
  unfold General.shared_mutex_lock. rewrite lock_unfold. reflexivity.
Qed.

Lemma handle_lock_shared_unfold (m : General.shared_mutex T) (g : rng) :
  h_lock_shared m g
  = (General.SharedMutex (General._key m)
       (fst (General.hash_choices K rand W g)),
     for_each OpLockShared (General._key m)
       (fst (General.hash_choices K rand W g)),
     snd (General.hash_choices K rand W g)).
Proof.
  unfold General.shared_mutex_lock_shared. rewrite lock_shared_unfold.
  reflexivity.
Qed.

(** X17: the handle of the general class hands to [unlock] the token its
    own [lock] returned, and likewise in shared mode: [lock(); unlock();]
    and [lock_shared(); unlock_shared();] on a handle release, slot by
    slot and in the same order, what they acquired, and leave every count
    at zero; on a handle that has not locked yet, [unlock()] and
    [unlock_shared()] make no call. *)
Theorem general_handle_round_trip (key : T) (g : rng) (s : N) :
  let m0 := General.shared_mutex_new key in
  let m1 := fst (fst (h_lock m0 g)) in
  let m2 := fst (fst (h_lock_shared m0 g)) in
  slots (h_unlock m1) = slots (snd (fst (h_lock m0 g)))
  /\ held_exclusive s (snd (fst (h_lock m0 g)) ++ h_unlock m1) = 0%Z
  /\ slots (h_unlock_shared m2) = slots (snd (fst (h_lock_shared m0 g)))
  /\ held_shared s (snd (fst (h_lock_shared m0 g)) ++ h_unlock_shared m2)
     = 0%Z
  /\ h_unlock m0 = []
  /\ h_unlock_shared m0 = [].
Proof.
  cbv zeta. rewrite handle_lock_unfold, handle_lock_shared_unfold.
  cbn [fst snd General._key General.shared_mutex_new].
  unfold General.shared_mutex_unlock, General.shared_mutex_unlock_shared,
    General.unlock, General.unlock_shared.
  cbn [General._key General._tok].
  unfold held_exclusive, held_shared.
  rewrite !block_total. cbn [op_eqb].
  repeat split; try lia;
    unfold slots, Keyed.for_each; rewrite !map_map; reflexivity.
Qed.
End Handles.


(** ** Instances *)

Lemma fixed_lock_holds_every_slot_witness :
  (4 < 64)%Z
  /\ Fixed.held 3 (Fixed.lock 4) = (if Fixed.in_table 4 3 then 1 else 0)%Z
  /\ length (Fixed.lock 4) = Z.to_nat (Fixed.K 4).
Proof.
  split; [reflexivity|].
  apply (@fixed_lock_holds_every_slot 4%Z 3%Z). reflexivity.
Defined.

Lemma fixed_lock_unlock_balanced_witness :
  (4 < 64)%Z
  /\ Fixed.unlock 4
     = map Fixed.CUnlock (map Z.of_nat (seq 0 (Z.to_nat (Fixed.K 4))))
  /\ Fixed.held 3 (Fixed.lock 4 ++ Fixed.unlock 4) = 0%Z
  /\ (0 <= Fixed.held 3 (firstn 20 (Fixed.lock 4 ++ Fixed.unlock 4)))%Z.
Proof.
  split; [reflexivity|].
  apply (@fixed_lock_unlock_balanced 4%Z 3%Z 20). reflexivity.
Defined.

Lemma try_lock_all_granted_witness :
  (2 < 64)%Z
  /\ Fixed.try_lock_until 2 (fun _ : Z => Sample.grants_below 4) 7 0
     = (Fixed.Returns true,
        map (fun i : Z => Fixed.CTryLock i true)
            (map Z.of_nat (seq 0 (Z.to_nat (Fixed.K 2)))))
  /\ snd (Fixed.try_lock 2 (Sample.grants_below 4) 0)
     = map (fun i : Z => Fixed.CTryLock i true)
           (map Z.of_nat (seq 0 (Z.to_nat (Fixed.K 2))))
  /\ Fixed.held 1
       (map (fun i : Z => Fixed.CTryLock i true)
            (map Z.of_nat (seq 0 (Z.to_nat (Fixed.K 2)))))
     = (if Fixed.in_table 2 1 then 1 else 0)%Z.
Proof.
  split; [reflexivity|].
  apply (@try_lock_all_granted 2%Z (Sample.grants_below 4)
           (fun _ : Z => Sample.grants_below 4) 7%Z 0 1%Z).
  - reflexivity.
  - intros j Hj. change (Fixed.K 2) with 4%Z in Hj.
    unfold Sample.grants_below. apply Z.ltb_lt. lia.
  - intros j Hj. change (Fixed.K 2) with 4%Z in Hj.
    unfold Sample.grants_below. apply Z.ltb_lt. lia.
Defined.

Lemma try_lock_first_refusal_witness :
  ((4 < 64)%Z /\ (Z.of_nat 2 < Fixed.K 4)%Z
   /\ Sample.grants_below 2 (Z.of_nat 2) = false)
  /\ let trace :=
       (map (fun i : Z => Fixed.CTryLock i true) (map Z.of_nat (seq 0 2))
        ++ [Fixed.CTryLock (Z.of_nat 2) false])
       ++ map Fixed.CUnlock (rev (map Z.of_nat (seq 0 2))) in
     Fixed.try_lock 4 (Sample.grants_below 2) (3 + 0)
     = (Fixed.OutOfBounds (2 ^ 64 - 1)%Z, trace)
     /\ Fixed.try_lock_until 4 (fun _ : Z => Sample.grants_below 2) 7 (3 + 0)
        = (Fixed.OutOfBounds (2 ^ 64 - 1)%Z, trace)
     /\ Fixed.held 1 trace = 0%Z.
Proof.
  split; [repeat split|].
  apply (@try_lock_first_refusal 4%Z (Sample.grants_below 2)
           (fun _ : Z => Sample.grants_below 2) 7%Z 2 0 1%Z).
  - reflexivity.
  - reflexivity.
  - intros j Hj. unfold Sample.grants_below. apply Z.ltb_lt. lia.
  - reflexivity.
  - intros j Hj. unfold Sample.grants_below. apply Z.ltb_lt. lia.
  - reflexivity.
Defined.

Lemma counter_gen_bits_wide (bits g : Z) :
  (0 < 2 ^ bits)%Z -> (0 <= fst (Sample.counter_gen bits g) < 2 ^ bits)%Z.
Proof.
  intro H. unfold Sample.counter_gen. cbn [fst]. apply Z.mod_pos_bound, H.
Qed.

Lemma fixed_reader_meets_writer_witness :
  exists (i : Z) (hd' : Fixed.handle Z),
    Fixed.lock_shared 4 (Sample.counter_gen 4) (Fixed.Handle 21%Z 0%Z)
    = (Fixed.Returns hd', [Fixed.CLockShared i])
    /\ In (Fixed.CLock i) (Fixed.lock 4)
    /\ Fixed.held i (Fixed.lock 4) = 1%Z.
Proof.
  apply (@fixed_reader_meets_writer 4%Z Z (Sample.counter_gen 4)
           (Fixed.Handle 21%Z 0%Z)).
  - reflexivity.
  - intro g. apply counter_gen_bits_wide. reflexivity.
Defined.

Lemma try_lock_shared_same_slot_witness :
  exists (i g' : Z),
    Sample.counter_gen 4 21 = (i, g')
    /\ (0 <= i < Fixed.K 4)%Z
    /\ Fixed.lock_shared 4 (Sample.counter_gen 4) (Fixed.Handle 21%Z 0%Z)
       = (Fixed.Returns (Fixed.Handle g' i), [Fixed.CLockShared i])
    /\ Fixed.try_lock_shared 4 (Sample.counter_gen 4) (Sample.grants_below 3)
         (Fixed.Handle 21%Z 0%Z)
       = (Fixed.Returns (Fixed.Handle g' i, Sample.grants_below 3 i),
          [Fixed.TryShared i (Sample.grants_below 3 i)])
    /\ Fixed.try_lock_shared_until 4 (Sample.counter_gen 4)
         (fun _ : Z => Sample.grants_below 3) 7 (Fixed.Handle 21%Z 0%Z)
       = (Fixed.Returns (Fixed.Handle g' i, Sample.grants_below 3 i),
          [Fixed.TryShared i (Sample.grants_below 3 i)])
    /\ Fixed.try_lock_shared_for 4 (Sample.counter_gen 4)
         (fun _ : Z => Sample.grants_below 3) 9 (Fixed.Handle 21%Z 0%Z)
       = (Fixed.Returns (Fixed.Handle g' i, Sample.grants_below 3 i),
          [Fixed.TryShared i (Sample.grants_below 3 i)])
    /\ Fixed.unlock_shared 4 (Fixed.Handle g' i)
       = (Fixed.Returns (Fixed.Handle g' i), [Fixed.CUnlockShared i]).
Proof.
  apply (@try_lock_shared_same_slot 4%Z Z (Sample.counter_gen 4)
           (Sample.grants_below 3) (fun _ : Z => Sample.grants_below 3)
           (fun _ : Z => Sample.grants_below 3) 7%Z 9%Z
           (Fixed.Handle 21%Z 0%Z)).
  intro g. apply counter_gen_bits_wide. reflexivity.
Defined.

Lemma second_lock_shared_forgets_first_witness :
  exists (i1 i2 g1 g2 : Z),
    Sample.counter_gen 4 21 = (i1, g1)
    /\ Sample.counter_gen 4 g1 = (i2, g2)
    /\ Fixed.nested_shared 4 (Sample.counter_gen 4) (Fixed.Handle 21%Z 0%Z)
       = (Fixed.Returns (Fixed.Handle g2 i2),
          [Fixed.CLockShared i1; Fixed.CLockShared i2;
           Fixed.CUnlockShared i2; Fixed.CUnlockShared i2])
    /\ Fixed.held_shared i1
         [Fixed.CLockShared i1; Fixed.CLockShared i2;
          Fixed.CUnlockShared i2; Fixed.CUnlockShared i2]
       = (if (i1 =? i2)%Z then 0 else 1)%Z
    /\ Fixed.held_shared i2
         [Fixed.CLockShared i1; Fixed.CLockShared i2;
          Fixed.CUnlockShared i2; Fixed.CUnlockShared i2]
       = (if (i1 =? i2)%Z then 0 else -1)%Z.
Proof.
  apply (@second_lock_shared_forgets_first 4%Z Z (Sample.counter_gen 4)
           (Fixed.Handle 21%Z 0%Z)).
  intro g. apply counter_gen_bits_wide. reflexivity.
Defined.

Lemma main_fixed_releases_everything_witness :
  exists (i : Z) (mut' : Fixed.handle Z),
    (0 <= i < 16)%Z
    /\ Example.main_fixed (Sample.counter_gen 4) (Fixed.Handle 21%Z 0%Z)
       = (Fixed.Returns mut',
          Fixed.lock 4 ++ Fixed.unlock 4
          ++ [Fixed.CLockShared i; Fixed.CUnlockShared i])
    /\ length (Fixed.lock 4) = 16
    /\ length (Fixed.unlock 4) = 16
    /\ Fixed.held 5 (Fixed.lock 4 ++ Fixed.unlock 4
                     ++ [Fixed.CLockShared i; Fixed.CUnlockShared i]) = 0%Z
    /\ Fixed.held_shared 5
         (Fixed.lock 4 ++ Fixed.unlock 4
          ++ [Fixed.CLockShared i; Fixed.CUnlockShared i]) = 0%Z.
Proof.
  apply (@main_fixed_releases_everything Z (Sample.counter_gen 4)
           (Fixed.Handle 21%Z 0%Z) 5%Z).
  intro g. apply counter_gen_bits_wide. reflexivity.
Defined.

Lemma hash_choices_oversized_witness :
  2 <= 3
  /\ fst (General.hash_choices 2 Sample.replay 3 [1]) = repeat 0 (3 - 2) ++ seq 0 2
  /\ fst (fst (General.lock Sample.id_hash Sample.id_hash 1024 2 3
                 Sample.replay 5%N [1]))
     = repeat 0 (3 - 2) ++ seq 0 2
  /\ fst (fst (General.lock_shared Sample.id_hash Sample.id_hash 1024 2 3
                 Sample.replay 5%N [1]))
     = repeat 0 (3 - 2) ++ seq 0 2.
Proof.
  split; [lia|].
  apply (@hash_choices_oversized N Sample.id_hash Sample.id_hash 1024 2
           (list nat) Sample.replay 3 5%N [1]).
  lia.
Defined.

Lemma oversized_quorum_relocks_slot_witness :
  (0 < 2 /\ 2 < 3)
  /\ (Z.of_nat (3 - 2 + 1)
      <= held_exclusive (Keyed.get_lock Sample.id_hash Sample.id_hash 1024 0 5%N)
           (snd (fst (General.lock Sample.id_hash Sample.id_hash 1024 2 3
                        Sample.replay 5%N [1%nat]))))%Z.
Proof.
  split; [lia|].
  apply (@oversized_quorum_relocks_slot N Sample.id_hash Sample.id_hash 1024
           2 (list nat) Sample.replay 3 5%N [1]); lia.
Defined.

Lemma same_key_common_order_witness :
  2 <= 4
  /\ let tw := fst (fst (General.lock Sample.id_hash Sample.id_hash 1024 4 2
                           Sample.replay 5%N [0; 1; 0])) in
     let tr := fst (fst (General.lock_shared Sample.id_hash Sample.id_hash
                           1024 4 2 Sample.replay 5%N [0; 0; 0])) in
     filter (fun i : nat => existsb (Nat.eqb i) tr) tw
     = filter (fun i : nat => existsb (Nat.eqb i) tw) tr
     /\ map (fun i => Keyed.get_lock Sample.id_hash Sample.id_hash 1024 i 5%N)
            (filter (fun i : nat => existsb (Nat.eqb i) tr) tw)
        = map (fun i => Keyed.get_lock Sample.id_hash Sample.id_hash 1024 i 5%N)
              (filter (fun i : nat => existsb (Nat.eqb i) tw) tr).
Proof.
  split; [lia|].
  apply (@same_key_common_order N Sample.id_hash Sample.id_hash 1024 4 2
           (list nat) Sample.replay 5%N [0; 1; 0] [0; 0; 0]).
  lia.
Defined.

Lemma special_reader_meets_writer_witness :
  exists i : nat,
    i < 8
    /\ snd (fst (Special.lock_shared Sample.id_hash Sample.id_hash 1024
                   (Sample.counter_dist 8) 5%N 11))
       = [Call OpLockShared
            (Keyed.get_lock Sample.id_hash Sample.id_hash 1024 i 5%N)]
    /\ In (Call OpLock (Keyed.get_lock Sample.id_hash Sample.id_hash 1024 i 5%N))
          (snd (Special.lock Sample.id_hash Sample.id_hash 1024 8 5%N))
    /\ (1 <= held_exclusive
               (Keyed.get_lock Sample.id_hash Sample.id_hash 1024 i 5%N)
               (snd (Special.lock Sample.id_hash Sample.id_hash 1024 8 5%N)))%Z.
Proof.
  apply (@special_reader_meets_writer N Sample.id_hash Sample.id_hash 1024 8
           nat (Sample.counter_dist 8) 5%N 11).
  intro e'. unfold Sample.counter_dist. cbn [fst].
  apply Nat.mod_upper_bound. lia.
Defined.

Lemma candidate_slots_distinct_witness :
  (1024 = 2 ^ 10 /\ N.of_nat 8 <= 2 ^ 10)%N
  /\ NoDup (slots (snd (Special.lock Sample.id_hash Sample.id_hash 1024 8 5%N)))
  /\ (forall i j : nat,
         i < 8 -> j < 8 ->
         Keyed.get_lock Sample.id_hash Sample.id_hash 1024 i 5%N
         = Keyed.get_lock Sample.id_hash Sample.id_hash 1024 j 5%N ->
         i = j).
Proof.
  split; [split; [reflexivity|vm_compute; discriminate]|].
  apply (@candidate_slots_distinct N Sample.id_hash Sample.id_hash 1024 8
           10%N 5%N).
  - intro x. reflexivity.
  - reflexivity.
  - vm_compute. discriminate.
Defined.

Lemma colliding_candidates_lock_twice_witness :
  (0 < 2 /\ 1 < 2 /\ 0 <> 1
   /\ Keyed.get_lock Sample.id_hash Sample.id_hash 1 0 5%N
      = Keyed.get_lock Sample.id_hash Sample.id_hash 1 1 5%N)
  /\ (2 <= held_exclusive (Keyed.get_lock Sample.id_hash Sample.id_hash 1 0 5%N)
            (snd (Special.lock Sample.id_hash Sample.id_hash 1 2 5%N)))%Z.
Proof.
  split; [repeat split; lia|].
  apply (@colliding_candidates_lock_twice N Sample.id_hash Sample.id_hash 1
           2 5%N 0 1); try lia.
  reflexivity.
Defined.


(** ** Order of acquisition within a call and between calls *)

Section Order.
Variable T : Type.
Variable ih : N -> N.
Variable th : T -> N.
Variable Nlocks : N.
Variable K : nat.
Variable W : nat.
Variable rng : Type.
Variable rand : rng -> nat * rng.

Local Abbreviation hash_choices := (General.hash_choices K rand).

(** Two subsets of the same size list their common indices alike,
    whatever the size. *)
Lemma tokens_common_order (g1 g2 : rng) :
  filter (fun i : nat => existsb (Nat.eqb i) (fst (hash_choices W g2)))
         (fst (hash_choices W g1))
  = filter (fun i : nat => existsb (Nat.eqb i) (fst (hash_choices W g1)))
           (fst (hash_choices W g2)).
Proof.
  destruct (Nat.le_gt_cases W K) as [Hle|Hgt].
  - apply strict_sorted_unique.
    + apply (filter_strict_sorted ih Nlocks), hash_choices_strict, Hle.
    + apply (filter_strict_sorted ih Nlocks), hash_choices_strict, Hle.
    + intro x. rewrite !common_In. tauto.
  - rewrite !(@hash_choices_padded K rng rand W) by lia. reflexivity.
Qed.

Lemma token_ascending (g : rng) :
  StronglySorted le (fst (hash_choices W g)).
Proof.
  apply Sorted_StronglySorted; [intros x y z; apply Nat.le_trans|].
  apply hash_choices_sorted.
Qed.
End Order.

(** C4 (amended): every [lock] and [lock_shared] call acquires its slots
    in ascending order of candidate index.  For the single resource the
    candidate index is the index in the table: [lock] takes the slots
    [0, 1, ..., K-1] in that order.  For the keyed lock the calls of the
    general class are those on [get_lock(i, key)] for the indices [i] of
    the token returned, in the order of the token, which is ascending
    (strictly so when [W <= K]); the specialised [lock] takes
    [get_lock(i, key)] for [i = 0, 1, ..., K-1] and the specialised
    [lock_shared] the one slot of the index it returns.  Hence two
    acquisitions for the same key, a writer's and a reader's or two
    writers', take the candidates they have in common in the same
    order. *)
Theorem acquisition_in_candidate_order
        (T : Type) (ih : N -> N) (th : T -> N) (Nlocks : N) (K W : nat)
        (rng : Type) (rand : rng -> nat * rng)
        (engine : Type) (dist : engine -> nat * engine)
        (bits : Z) (key : T) (gw gw' gr : rng) (e : engine) :
  (bits < 64)%Z ->
  let w := General.lock ih th Nlocks K W rand key gw in
  let w' := General.lock ih th Nlocks K W rand key gw' in
  let r := General.lock_shared ih th Nlocks K W rand key gr in
  let sr := Special.lock_shared ih th Nlocks dist key e in
  (Fixed.acquired (Fixed.lock bits)
   = map Z.of_nat (seq 0 (Z.to_nat (Fixed.K bits)))
   /\ StronglySorted Z.lt (Fixed.acquired (Fixed.lock bits)))
  /\ (snd (fst w)
      = map (fun i => Call OpLock (get_lock ih th Nlocks i key)) (fst (fst w))
      /\ StronglySorted le (fst (fst w))
      /\ (W <= K -> StronglySorted lt (fst (fst w))))
  /\ (snd (fst r)
      = map (fun i => Call OpLockShared (get_lock ih th Nlocks i key))
            (fst (fst r))
      /\ StronglySorted le (fst (fst r))
      /\ (W <= K -> StronglySorted lt (fst (fst r))))
  /\ (snd (Special.lock ih th Nlocks K key)
      = map (fun i => Call OpLock (get_lock ih th Nlocks i key)) (seq 0 K)
      /\ StronglySorted lt (seq 0 K))
  /\ snd (fst sr)
     = [Call OpLockShared (get_lock ih th Nlocks (fst (fst sr)) key)]
  /\ filter (fun i : nat => existsb (Nat.eqb i) (fst (fst r))) (fst (fst w))
     = filter (fun i : nat => existsb (Nat.eqb i) (fst (fst w))) (fst (fst r))
  /\ filter (fun i : nat => existsb (Nat.eqb i) (fst (fst w'))) (fst (fst w))
     = filter (fun i : nat => existsb (Nat.eqb i) (fst (fst w)))
              (fst (fst w')).
Proof.
  intros Hb w w' r sr. subst w w' r sr.
  rewrite !lock_unfold, !lock_shared_unfold. cbn [fst snd].
  assert (Hacq : Fixed.acquired (Fixed.lock bits)
                 = map Z.of_nat (seq 0 (Z.to_nat (Fixed.K bits)))).
  { unfold Fixed.lock.
    pose proof (K_nonneg bits). pose proof (K_below_size_max Hb).
    rewrite lock_from_acquired; [reflexivity|lia|].
    rewrite Z2Nat.id; lia. }
  split; [split; [exact Hacq|rewrite Hacq; apply of_nat_seq_strict]|].
  split; [|split; [|split; [|split; [|split]]]].
  - split; [reflexivity|]. split; [apply token_ascending|].
    intro HW. apply hash_choices_strict, HW.
  - split; [reflexivity|]. split; [apply token_ascending|].
    intro HW. apply hash_choices_strict, HW.
  - split; [reflexivity|apply seq_strict_sorted].
  - unfold Special.lock_shared. destruct (dist e) as [i e']. reflexivity.
  - apply (tokens_common_order ih Nlocks).
  - apply (tokens_common_order ih Nlocks).
Qed.

Lemma acquisition_in_candidate_order_witness :
  ((4 < 64)%Z /\ 2 <= 4)
  /\ let w := General.lock Sample.id_hash Sample.id_hash 1024 4 2
                Sample.replay 9%N [0; 1; 0] in
     let w' := General.lock Sample.id_hash Sample.id_hash 1024 4 2
                 Sample.replay 9%N [1; 1; 1] in
     let r := General.lock_shared Sample.id_hash Sample.id_hash 1024 4 2
                Sample.replay 9%N [0; 0; 0] in
     let sr := Special.lock_shared Sample.id_hash Sample.id_hash 1024
                 (Sample.counter_dist 4) 9%N 3 in
     (Fixed.acquired (Fixed.lock 4)
      = map Z.of_nat (seq 0 (Z.to_nat (Fixed.K 4)))
      /\ StronglySorted Z.lt (Fixed.acquired (Fixed.lock 4)))
     /\ (snd (fst w)
         = map (fun i => Call OpLock
                           (get_lock Sample.id_hash Sample.id_hash 1024 i 9%N))
               (fst (fst w))
         /\ StronglySorted lt (fst (fst w)))
     /\ (snd (fst r)
         = map (fun i => Call OpLockShared
                           (get_lock Sample.id_hash Sample.id_hash 1024 i 9%N))
               (fst (fst r))
         /\ StronglySorted lt (fst (fst r)))
     /\ snd (fst sr)
        = [Call OpLockShared
             (get_lock Sample.id_hash Sample.id_hash 1024 (fst (fst sr)) 9%N)]
     /\ filter (fun i : nat => existsb (Nat.eqb i) (fst (fst r))) (fst (fst w))
        = filter (fun i : nat => existsb (Nat.eqb i) (fst (fst w)))
                 (fst (fst r))
     /\ filter (fun i : nat => existsb (Nat.eqb i) (fst (fst w')))
               (fst (fst w))
        = filter (fun i : nat => existsb (Nat.eqb i) (fst (fst w)))
                 (fst (fst w')).
Proof.
  split; [split; [reflexivity|lia]|].
  pose proof (@acquisition_in_candidate_order N Sample.id_hash Sample.id_hash
                1024 4 2 (list nat) Sample.replay nat (Sample.counter_dist 4)
                4%Z 9%N [0; 1; 0] [1; 1; 1] [0; 0; 0] 3 eq_refl) as H.
  cbv zeta in H.
  destruct H as (Hf & (Hw & _ & Hws) & (Hr & _ & Hrs) & _ & Hsr & Hwr & Hww).
  cbv zeta.
  split; [exact Hf|].
  split; [split; [exact Hw|apply Hws; lia]|].
  split; [split; [exact Hr|apply Hrs; lia]|].
  split; [exact Hsr|]. split; [exact Hwr|exact Hww].
Defined.
